(** * Railway PageRank pipeline: a shallow embedding of
      [run_railway_pagerank.py] and the properties of its stages.

    Python values are represented as follows.
    - [str]: the list of its Unicode code points ([list N]); [endswith] and
      slicing count code points, not bytes.
    - a [csv.DictReader] row: a finite map from column name to the cell,
      which is a string or [None] (a short row is padded with [None]).
    - [dict]: stdpp's [gmap]; a dict whose iteration order is used by the
      script (the score map) is an association list in insertion order.
    - [float] / numpy [float64]: IEEE-754 binary64 as specified by
      [SpecFloat] with precision 53 and maximal exponent 1024; its
      operations are proved to round the exact result to nearest, which is
      what the bounds and the monotonicity of Visual Scaling rest on.
      [np.log10] and [nx.pagerank] are library routines and are parameters.
    - [nx.DiGraph]: the insertion-ordered node list and the edge list.
    - [sys.exit()] and the numbered progress banners: a small monad that
      records the steps entered and may stop with an outcome. *)

From Stdlib Require Import ZArith NArith List Bool Lia String Ascii.
From Stdlib Require Import Sorting.Sorted Sorting.Permutation.
From Stdlib Require Import Floats.SpecFloat.
From stdpp Require Import base option list sorting gmap.

Local Open Scope N_scope.

(** ** Strings *)

Abbreviation pystr := (list N).

(** [py s] is the Python string whose characters are the ASCII characters
    of [s]. *)
Definition py (s : string) : pystr :=
  List.map N_of_ascii (list_ascii_of_string s).

(** The designator character U+7AD9, the literal of line 68. *)
Definition designator : N := 31449.

(** [s.endswith(c)] for a one-character string [c]. *)
Definition endswith (s : pystr) (c : N) : bool :=
  match last s with
  | Some d => N.eqb d c
  | None => false
  end.

(** [s[:-1]] *)
Definition drop_last (s : pystr) : pystr := removelast s.

(** ** Rows of [csv.DictReader] *)

Abbreviation row := (gmap (list N) (option (list N))).

(** [row.get(k)]: [None] when the column is absent or the cell is [None]. *)
Definition row_get (r : row) (k : pystr) : option pystr :=
  match r !! k with
  | Some cell => cell
  | None => None
  end.

(** Truth value of [row.get(k)] in a condition: a non-empty string. *)
Definition truthy (v : option pystr) : bool :=
  match v with
  | Some (_ :: _) => true
  | _ => false
  end.

(** The string held by a truthy cell. *)
Definition str_of (v : option pystr) : pystr := default [] v.

Definition col_src : pystr := py "src".
Definition col_dst : pystr := py "dst".
(** Column U+7AD9 U+540D (station name). *)
Definition col_name : pystr := [31449; 21517].
Definition col_lng : pystr := py "WGS84_Lng".
Definition col_lat : pystr := py "WGS84_Lat".

(** ** Directed graphs ([nx.DiGraph]) *)

Record DiGraph := mkDiGraph {
  nodes : list pystr;
  edges : list (pystr * pystr)
}.

Definition empty_graph : DiGraph := mkDiGraph [] [].

Definition add_to {A} `{EqDecision A} (x : A) (l : list A) : list A :=
  if decide (x ∈ l) then l else l ++ [x].

(** [graph.add_edge(u, v)]: both endpoints become nodes if they are not yet,
    and the edge is recorded once. *)
Definition add_edge (u v : pystr) (g : DiGraph) : DiGraph :=
  mkDiGraph (add_to v (add_to u (nodes g))) (add_to (u, v) (edges g)).

Definition number_of_nodes (g : DiGraph) : nat := length (nodes g).
Definition number_of_edges (g : DiGraph) : nat := length (edges g).

(** ** Edge Loader: [build_graph_from_csv] *)

(** Body of the loop of lines 29-38. [row.get] never raises [KeyError],
    so the handler of line 37 is dead. *)
Definition build_graph_row (graph : DiGraph) (r : row) : DiGraph :=
  let src_station := row_get r col_src in
  let dst_station := row_get r col_dst in
  if truthy src_station && truthy dst_station
  then add_edge (str_of src_station) (str_of dst_station) graph
  else graph.

(** A file is [None] when it cannot be opened or read, and the list of its
    rows otherwise. The result is the graph after the call and the returned
    flag. *)
Definition build_graph_from_csv (line_csv_file : option (list row))
    (graph : DiGraph) : DiGraph * bool :=
  match line_csv_file with
  | Some reader => (foldl build_graph_row graph reader, true)
  | None => (graph, false)
  end.

(** ** Floating point: binary64 *)

Abbreviation f64 := spec_float.

Definition prec : Z := 53.
Definition emax : Z := 1024.

Definition f64_add : f64 → f64 → f64 := SFadd prec emax.
Definition f64_sub : f64 → f64 → f64 := SFsub prec emax.
Definition f64_mul : f64 → f64 → f64 := SFmul prec emax.
Definition f64_div : f64 → f64 → f64 := SFdiv prec emax.

(** Conversion of a Python [int] to [float64]. *)
Definition f64_of_Z (z : Z) : f64 := binary_normalize prec emax z 0 false.

(** The float nearest to [(-1)^neg * m * 10^e10]: what a decimal literal or
    decimal text denotes. For a negative exponent the quotient of the two
    integers is rounded once, by the division of [SpecFloat]. *)
Definition f64_of_decimal (neg : bool) (m : N) (e10 : Z) : f64 :=
  match m with
  | N0 => S754_zero neg
  | Npos p =>
      if (0 <=? e10)%Z
      then binary_round prec emax neg (p * Z.to_pos (10 ^ e10)) 0
      else SFdiv prec emax (S754_finite neg p 0)
             (S754_finite false (Z.to_pos (10 ^ (- e10))) 0)
  end.

Definition is_nan (x : f64) : bool :=
  match x with S754_nan => true | _ => false end.

(** [math.isfinite]: neither an infinity nor a NaN. *)
Definition is_finite (x : f64) : bool :=
  match x with
  | S754_zero _ | S754_finite _ _ _ => true
  | S754_infinity _ | S754_nan => false
  end.

(** ** The builtin [float(text)] on ASCII text

    Grammar of the builtin: optional surrounding whitespace, an optional
    sign, then [inf], [infinity] or [nan] in any letter case, or a decimal
    number with an optional fraction and an optional exponent, where single
    underscores may separate digits. [None] stands for [ValueError].
    Non-ASCII digits and spaces, which the builtin also accepts, are outside
    this model; the loader below takes the conversion as a parameter and
    this model instantiates it on ASCII text. *)
Module PyFloat.

Definition is_space (c : N) : bool :=
  ((9 <=? c) && (c <=? 13)) || ((28 <=? c) && (c <=? 32)).

Fixpoint lstrip (s : pystr) : pystr :=
  match s with
  | c :: s' => if is_space c then lstrip s' else s
  | [] => []
  end.

Definition strip (s : pystr) : pystr := rev (lstrip (rev (lstrip s))).

Definition lower (c : N) : N :=
  if (65 <=? c) && (c <=? 90) then c + 32 else c.

Definition digit_val (c : N) : option N :=
  if (48 <=? c) && (c <=? 57) then Some (c - 48) else None.

(** The rest of a digit part, after its first digit. *)
Fixpoint digits_tail (s : pystr) : list N * pystr :=
  match s with
  | c :: s' =>
      match digit_val c with
      | Some d => let '(ds, r) := digits_tail s' in (d :: ds, r)
      | None =>
          if c =? 95 then
            match s' with
            | c2 :: s'' =>
                match digit_val c2 with
                | Some d => let '(ds, r) := digits_tail s'' in (d :: ds, r)
                | None => ([], s)
                end
            | [] => ([], s)
            end
          else ([], s)
      end
  | [] => ([], [])
  end.

Definition digitpart (s : pystr) : option (list N * pystr) :=
  match s with
  | c :: s' =>
      match digit_val c with
      | Some d => let '(ds, r) := digits_tail s' in Some (d :: ds, r)
      | None => None
      end
  | [] => None
  end.

(** Integer digits, fraction digits and the unread rest. *)
Definition number (s : pystr) : option (list N * list N * pystr) :=
  match digitpart s with
  | Some (ip, 46 :: r) =>
      match digitpart r with
      | Some (fp, r') => Some (ip, fp, r')
      | None => Some (ip, [], r)
      end
  | Some (ip, r) => Some (ip, [], r)
  | None =>
      match s with
      | 46 :: r =>
          match digitpart r with
          | Some (fp, r') => Some ([], fp, r')
          | None => None
          end
      | _ => None
      end
  end.

Definition sign (s : pystr) : bool * pystr :=
  match s with
  | 43 :: r => (false, r)
  | 45 :: r => (true, r)
  | _ => (false, s)
  end.

Definition digits_value (ds : list N) : N :=
  fold_left (λ acc d, 10 * acc + d) ds 0.

(** The decimal exponent and the unread rest; [None] for a dangling [e]. *)
Definition exponent (s : pystr) : option (Z * pystr) :=
  match s with
  | c :: r =>
      if lower c =? 101 then
        let '(neg, r1) := sign r in
        match digitpart r1 with
        | Some (ds, r2) =>
            let e := Z.of_N (digits_value ds) in
            Some (if neg then (- e)%Z else e, r2)
        | None => None
        end
      else Some (0%Z, s)
  | [] => Some (0%Z, [])
  end.

Definition float (text : pystr) : option f64 :=
  let '(neg, body) := sign (strip text) in
  let word := List.map lower body in
  if decide (word = py "inf" ∨ word = py "infinity")
  then Some (S754_infinity neg)
  else if decide (word = py "nan") then Some S754_nan
  else
    match number body with
    | Some (ip, fp, r) =>
        match exponent r with
        | Some (e, []) =>
            Some (f64_of_decimal neg (digits_value (ip ++ fp))
                    (e - Z.of_nat (length fp)))
        | _ => None
        end
    | None => None
    end.

End PyFloat.


(** ** Coordinate Loader: [load_coordinates_from_csv] *)

Abbreviation coords := (f64 * f64)%type.

Section CoordinateLoader.

(** The builtin [float] applied to a string: [None] for [ValueError]. *)
Variable float : pystr → option f64.

(** Lines 68-69: the key under which a station name is stored. *)
Definition normalize (station_name : pystr) : pystr :=
  if endswith station_name designator
  then drop_last station_name
  else station_name.

(** Lines 63-70: the assignment [pos[key] = value] the loop body performs
    for a row, if it performs one. The guard of line 67 fails on an absent or
    empty cell; [float] raising [ValueError] leaves the body through the
    handler of line 71 before the assignment. *)
Definition coord_entry (r : row) : option (pystr * coords) :=
  let station_name := row_get r col_name in
  let lon_str := row_get r col_lng in
  let lat_str := row_get r col_lat in
  if truthy station_name && truthy lon_str && truthy lat_str then
    let station_name := normalize (str_of station_name) in
    lon ← float (str_of lon_str);
    lat ← float (str_of lat_str);
    Some (station_name, (lon, lat))
  else None.

(** One iteration of the loop of line 61. *)
Definition load_row (pos : gmap (list N) coords) (r : row)
    : gmap (list N) coords :=
  match coord_entry r with
  | Some (station_name, value) => <[station_name := value]> pos
  | None => pos
  end.

(** [None] is the [None] returned when the file cannot be read. *)
Definition load_coordinates_from_csv (coords_csv_file : option (list row))
    : option (gmap (list N) coords) :=
  match coords_csv_file with
  | Some reader => Some (foldl load_row ∅ reader)
  | None => None
  end.

End CoordinateLoader.

(** ** Graph Filter (lines 98-105) *)

(** [list(set(G.nodes()).intersection(set(pos.keys())))]. The order of a list
    made from a set is unspecified; the script only tests the list for
    emptiness and membership. *)
Definition valid_nodes (G : DiGraph) (pos : gmap (list N) coords)
    : list pystr :=
  filter (λ n, is_Some (pos !! n)) (nodes G).

(** [G.subgraph(valid)]: the subgraph induced by the nodes of [G] that are
    in [valid]. *)
Definition subgraph (G : DiGraph) (valid : list pystr) : DiGraph :=
  mkDiGraph (filter (λ n, n ∈ valid) (nodes G))
            (filter (λ e, e.1 ∈ valid ∧ e.2 ∈ valid) (edges G)).

(** The dict comprehension of line 105. *)
Definition restrict_pos (pos : gmap (list N) coords) (valid : list pystr)
    : gmap (list N) coords :=
  filter (λ kv, kv.1 ∈ valid) pos.

(** Lines 104 and 105 as functions of the loaded graph and coordinates. *)
Definition G_filtered (G : DiGraph) (pos : gmap (list N) coords) : DiGraph :=
  subgraph G (valid_nodes G pos).

Definition pos_filtered (G : DiGraph) (pos : gmap (list N) coords)
    : gmap (list N) coords :=
  restrict_pos pos (valid_nodes G pos).

(** ** Visual Scaling (lines 112-120) *)

(** [np.minimum] and [np.maximum]: [a] if [a < b] (resp. [a > b]), else
    [b]; a NaN operand gives NaN. *)
Definition np_minimum (a b : f64) : f64 :=
  match SFcompare a b with
  | Some Lt => a
  | Some _ => b
  | None => S754_nan
  end.

Definition np_maximum (a b : f64) : f64 :=
  match SFcompare a b with
  | Some Gt => a
  | Some _ => b
  | None => S754_nan
  end.

(** [np.min] and [np.max] of a one-dimensional array; [None] stands for the
    [ValueError] raised on an empty array. *)
Definition np_min (a : list f64) : option f64 :=
  match a with
  | x :: a' => Some (fold_left np_minimum a' x)
  | [] => None
  end.

Definition np_max (a : list f64) : option f64 :=
  match a with
  | x :: a' => Some (fold_left np_maximum a' x)
  | [] => None
  end.

Definition min_display_size : Z := 5.
Definition max_display_size : Z := 300.

(** The literal [1e-9] of line 114. *)
Definition epsilon : f64 := f64_of_decimal false 1 (-9).

(** Lines 115-120, from the array [sizes_log]. *)
Definition scale_sizes (sizes_log : list f64) : option (list f64) :=
  min_log_size ← np_min sizes_log;
  max_log_size ← np_max sizes_log;
  let norm_sizes :=
    List.map (λ x, f64_div (f64_sub x min_log_size)
                           (f64_sub max_log_size min_log_size)) sizes_log in
  Some (List.map
          (λ x, f64_add
                  (f64_mul x (f64_of_Z (max_display_size - min_display_size)))
                  (f64_of_Z min_display_size))
          norm_sizes).

Section VisualScaling.

(** [np.log10] on one [float64]. *)
Variable log10 : f64 → f64.

(** Line 114. *)
Definition sizes_log (scores : list f64) : list f64 :=
  List.map (λ s, log10 (f64_add s epsilon)) scores.

Definition node_sizes_scaled (scores : list f64) : option (list f64) :=
  scale_sizes (sizes_log scores).

End VisualScaling.

(** ** Label Selector (lines 123-128) *)

Abbreviation item := (list N * f64)%type.

(** Python compares two floats with [<]. *)
Definition f64_lt (a b : f64) : bool := SFltb a b.

(** A stable ascending sort by key that, like [list.sort], compares keys
    with [<] only: an element is moved in front of exactly the elements whose
    key is strictly greater. *)
Fixpoint insert_sorted (x : item) (l : list item) : list item :=
  match l with
  | y :: l' =>
      if f64_lt y.2 x.2 then y :: insert_sorted x l' else x :: y :: l'
  | [] => [x]
  end.

Definition sort_by_score (l : list item) : list item :=
  foldr insert_sorted [] l.

(** [sorted(items, key=lambda item: item[1], reverse=True)]: with
    [reverse=True] the list is reversed, sorted in ascending order and
    reversed again, so that equal keys keep their original order. *)
Definition sorted_reverse (items : list item) : list item :=
  reverse (sort_by_score (reverse items)).

Definition top_k : nat := 15.

(** Line 123. *)
Definition sorted_stations (pagerank_scores : list item) : list item :=
  sorted_reverse pagerank_scores.

(** [sorted_stations[:15]], the stations that are printed and labelled. *)
Definition label_set (pagerank_scores : list item) : list item :=
  take top_k (sorted_stations pagerank_scores).

(** The keys of [labels_to_draw] after the loop of line 126. *)
Definition labels_to_draw (pagerank_scores : list item) : list pystr :=
  List.map fst (label_set pagerank_scores).

(** [pagerank_scores.get(node, 0)] *)
Definition score_get (pagerank_scores : list item) (node : pystr) : f64 :=
  match list_find (λ kv : item, kv.1 = node) pagerank_scores with
  | Some (_, (_, score)) => score
  | None => S754_zero false
  end.

(** ** The script (lines 84-197) *)

(** The numbered steps whose banner the script prints. *)
Inductive step :=
  | LoadGraph | LoadCoordinates | FilterGraph | ComputePageRank
  | ScaleSizes | SelectLabels | Draw.

(** Why [sys.exit()] was called. *)
Inductive diagnostic :=
  | LineFileUnreadable        (* line 87 *)
  | NoCoordinates             (* line 94 *)
  | EmptyIntersection.        (* line 103 *)

(** What is handed to the plotting calls of lines 144-176. *)
Record figure := mkFigure {
  fig_edges : list (pystr * pystr);
  fig_nodes : list pystr;
  fig_sizes : list f64;
  fig_colors : list f64;
  fig_texts : list (pystr * coords)
}.

Inductive outcome :=
  | Exit (d : diagnostic)     (* [sys.exit()] after a diagnostic *)
  | Raised                    (* an exception left a library call *)
  | Shown (f : figure).       (* [plt.show()] *)

(** A computation of the script: the steps entered so far, and either a
    value or the outcome that ended the run. *)
Definition run (A : Type) : Type := list step * (A + outcome).

Definition run_ret {A} (a : A) : run A := ([], inl a).

Definition run_bind {A B} (m : run A) (k : A → run B) : run B :=
  match m with
  | (log, inl a) => let '(log', r) := k a in (log ++ log', r)
  | (log, inr o) => (log, inr o)
  end.

Definition enter (s : step) : run unit := ([s], inl tt).
Definition stop {A} (o : outcome) : run A := ([], inr o).
Definition sys_exit {A} (d : diagnostic) : run A := stop (Exit d).

(** A library call that returns or raises. *)
Definition call {A} (r : option A) : run A :=
  match r with
  | Some a => run_ret a
  | None => stop Raised
  end.

Notation "x ←ᵣ m ; k" := (run_bind m (λ x, k))
  (at level 20, m at level 100, k at level 200, only parsing).
Notation "' p ←ᵣ m ; k" := (run_bind m (λ x, match x with p => k end))
  (at level 20, p pattern, m at level 100, k at level 200, only parsing).
Notation "m ;ᵣ k" := (run_bind m (λ _, k))
  (at level 100, k at level 200, right associativity, only parsing).

(** Step 3, lines 97-106. *)
Definition graph_filter (G : DiGraph) (pos : gmap (list N) coords)
    : run (DiGraph * gmap (list N) coords) :=
  enter FilterGraph ;ᵣ
  match valid_nodes G pos with
  | [] => sys_exit EmptyIntersection
  | _ => run_ret (G_filtered G pos, pos_filtered G pos)
  end.

Section Script.

Variable float : pystr → option f64.
(** [nx.pagerank]: the items of the returned dict, or [None] when the
    iteration raises. *)
Variable pagerank : DiGraph → option (list item).
Variable log10 : f64 → f64.

(** Steps 4 to 7, lines 108-197. *)
Definition rank_and_draw (Gf : DiGraph)
    (posf : gmap (list N) coords) : run figure :=
  enter ComputePageRank ;ᵣ
  pagerank_scores ←ᵣ call (pagerank Gf) ;
  enter ScaleSizes ;ᵣ
  let scores := List.map (score_get pagerank_scores) (nodes Gf) in
  let node_colors := scores in
  node_sizes ←ᵣ call (node_sizes_scaled log10 scores) ;
  enter SelectLabels ;ᵣ
  let labels := labels_to_draw pagerank_scores in
  enter Draw ;ᵣ
  let texts :=
    filter (λ kv : pystr * coords, kv.1 ∈ labels)
           (map_to_list posf) in
  run_ret (mkFigure (edges Gf) (nodes Gf) node_sizes node_colors texts).

(** Steps 3 to 7, from the loaded graph and coordinates. *)
Definition filter_rank_draw (G : DiGraph) (pos : gmap (list N) coords)
    : run figure :=
  '(Gf, posf) ←ᵣ graph_filter G pos ;
  rank_and_draw Gf posf.

(** The whole script, from the two input files. *)
Definition script (line_file coords_file : option (list row)) : run figure :=
  enter LoadGraph ;ᵣ
  let '(G, ok) := build_graph_from_csv line_file empty_graph in
  if negb ok then sys_exit LineFileUnreadable else
  enter LoadCoordinates ;ᵣ
  match load_coordinates_from_csv float coords_file with
  | None => sys_exit NoCoordinates
  | Some pos =>
      if decide (pos = ∅) then sys_exit NoCoordinates else
      filter_rank_draw G pos
  end.

(** The outcome of a run of the script. *)
Definition main (line_file coords_file : option (list row))
    : list step * outcome :=
  match script line_file coords_file with
  | (log, inl f) => (log, Shown f)
  | (log, inr o) => (log, o)
  end.

End Script.

(** ** The conditions the specification names *)

(** The (src, dst) pair a line row asks for: both cells present and
    non-empty. *)
Definition row_pair (r : row) (u v : pystr) : Prop :=
  row_get r col_src = Some u ∧ row_get r col_dst = Some v ∧ u ≠ [] ∧ v ≠ [].

(** A cell is present and non-empty and holds [s]. *)
Definition cell (r : row) (k s : pystr) : Prop :=
  row_get r k = Some s ∧ s ≠ [].

(** The text parses as a finite number. *)
Definition parses_finite (float : pystr → option f64) (s : pystr) : Prop :=
  ∃ x, float s = Some x ∧ is_finite x = true.

(** The acceptance condition as the specification words it: all three cells
    present and non-empty, both coordinates parsing as finite numbers. *)
Definition accepted_as_specified (float : pystr → option f64) (r : row)
    : Prop :=
  ∃ name lon lat, cell r col_name name ∧ cell r col_lng lon
    ∧ cell r col_lat lat ∧ parses_finite float lon ∧ parses_finite float lat.

(** The acceptance condition of the code: all three cells present and
    non-empty, [float] returning for both coordinates. *)
Definition accepted (float : pystr → option f64) (r : row) : Prop :=
  ∃ name lon lat, cell r col_name name ∧ cell r col_lng lon
    ∧ cell r col_lat lat ∧ is_Some (float lon) ∧ is_Some (float lat).

(** [a] may stand before [b] in a list sorted by descending score, and in
    one sorted by ascending score. *)
Definition score_ge (a b : item) : Prop := SFleb b.2 a.2 = true.
Definition score_le (a b : item) : Prop := SFleb a.2 b.2 = true.

(** The item has score [v]; items tied with each other have a common [v]. *)
Definition tied (v : f64) (it : item) : Prop := SFeqb it.2 v = true.

#[global] Instance tied_dec v it : Decision (tied v it) :=
  decide (SFeqb it.2 v = true).

(** No score is a NaN. *)
Definition no_nan (l : list item) : Prop :=
  Forall (λ it : item, is_nan it.2 = false) l.

(** Sample data: U+5317 U+4EAC (Beijing), a line row, a coordinate row, and
    the floats that [116.4] and [39.9] denote. *)
Definition lon_sample : f64 := S754_finite false 8190921822280090 (-46).
Definition lat_sample : f64 := S754_finite false 5615425785377587 (-47).

Definition beijing : pystr := [21271; 20140].

Definition line_row (src dst : pystr) : row :=
  {[ col_src := Some src; col_dst := Some dst ]}.

Definition coord_row (name lon lat : pystr) : row :=
  {[ col_name := Some name; col_lng := Some lon; col_lat := Some lat ]}.

(** ** Values of floats and rounding

    What the properties of Visual Scaling are stated with: the value of a
    float as an integer, and rounding to nearest as a function on
    rationals, against which the operations of [SpecFloat] are proved. *)

Local Open Scope Z_scope.

(** The values of floats and of the exact results of operations are counted
    in units of [2^-U], a unit finer than every exponent that occurs, so
    that they are integers or quotients of integers. *)
Definition U : Z := 2200.

(** Twice the integer part of the non-negative rational [N / D], plus one
    when [N / D] is not an integer: the integer part with a sticky bit. *)
Definition st (N D : Z) : Z := 2 * (N / D) + (if N mod D =? 0 then 0 else 1).

(** The integer nearest to [x], ties to the even one, from [T = st (2 * x)]:
    [T / 4] is the integer part and [T mod 4] places the rest below, at or
    above one half. *)
Definition rne4 (T : Z) : Z :=
  let m := T / 4 in
  let c := T mod 4 in
  if c <? 2 then m
  else if c =? 2 then (if Z.even m then m else m + 1)
  else m + 1.

(** A mantissa with its round and sticky bits, and a mantissa with its
    location, as one integer. *)
Definition code (r : shr_record) : Z :=
  4 * shr_m r + (if shr_r r then 2 else 0) + (if shr_s r then 1 else 0).

Definition loc_code (l : location) : Z :=
  match l with
  | loc_Exact => 0
  | loc_Inexact Lt => 1
  | loc_Inexact Eq => 2
  | loc_Inexact Gt => 3
  end.

(** The exponent of the floats whose magnitude has [e] as binary order:
    [fexp 53 1024]. *)
Definition fexp64 (e : Z) : Z := Z.max (e - 53) (-1074).

(** The integer part of [N / D] in units of [2^-1074]. *)
Definition ipart (N D : Z) : Z := N / (D * 2 ^ (U - 1074)).

(** Rounding of the non-negative rational [N / D] to binary64, to nearest
    with ties to even: the exponent, the mantissa and the value. *)
Definition rn_exp (N D : Z) : Z := fexp64 (Zdigits2 (ipart N D) - 1074).

Definition rn_mant (N D : Z) : Z :=
  rne4 (st N (D * 2 ^ (rn_exp N D + U - 1))).

Definition RN (N D : Z) : Z := rn_mant N D * 2 ^ (rn_exp N D + U).

(** A canonical mantissa and exponent. *)
Definition canonical (m e : Z) : Prop := 0 < m /\ e = fexp64 (Zdigits2 m + e).

(** The magnitude and the value of a zero or finite float. *)
Definition mag (x : spec_float) : Z :=
  match x with
  | S754_finite _ m e => Zpos m * 2 ^ (e + U)
  | _ => 0
  end.

Definition val (x : spec_float) : Z :=
  match x with
  | S754_finite s m e => cond_Zopp s (Zpos m * 2 ^ (e + U))
  | _ => 0
  end.

(** A zero or a finite float in canonical form, of sign [sx]. *)
Definition finite_of_sign (sx : bool) (x : spec_float) : Prop :=
  x = S754_zero sx
  \/ exists m e, x = S754_finite sx m e /\ bounded 53 1024 m e = true.

(** A zero or a finite float in canonical form. *)
Definition valid (x : spec_float) : Prop :=
  match x with
  | S754_zero _ => True
  | S754_finite _ m e => bounded 53 1024 m e = true
  | _ => False
  end.

(** A zero of either sign or a positive finite float in canonical form. *)
Definition nonneg (x : spec_float) : Prop :=
  match x with
  | S754_zero _ => True
  | S754_finite s m e => s = false /\ bounded 53 1024 m e = true
  | _ => False
  end.

(** A zero or a canonical finite float of magnitude below [2^1022]. *)
Definition moderate (x : f64) : Prop :=
  match x with
  | S754_zero _ => True
  | S754_finite _ m e => bounded 53 1024 m e = true /\ e <= 969
  | _ => False
  end.

(** Lines 117 and 120 for one log-value [x]. *)
Definition display_size (min_log_size max_log_size x : f64) : f64 :=
  f64_add
    (f64_mul (f64_div (f64_sub x min_log_size)
                      (f64_sub max_log_size min_log_size))
             (f64_of_Z (max_display_size - min_display_size)))
    (f64_of_Z min_display_size).

(** The integer function that [display_size] computes on values: [d] is
    the distance of the log-value from the smallest one and [W] the rounded
    distance of the largest one. *)
Definition size_val (W d : Z) : Z :=
  RN (RN (RN (RN d 1 * 2 ^ U) W * (295 * 2 ^ U)) (2 ^ U) + 5 * 2 ^ U) 1.


(** The log-value of a score (line 114). *)
Definition log_value (log10 : f64 -> f64) (s : f64) : f64 :=
  log10 (f64_add s epsilon).


(** The scores [0.25] and [0.75], and a function that takes at
    [0.25 + 1e-9] and at [0.75 + 1e-9] the binary64 numbers nearest to
    their decimal logarithms, [-0.6020599895907844] and
    [-0.12493873602924066]. *)
Definition score_quarter : f64 := S754_finite false 4503599627370496 (-54).
Definition score_three_quarters : f64 :=
  S754_finite false 6755399441055744 (-53).

Definition log10_sample (x : f64) : f64 :=
  if SFltb x (S754_finite false 4503599627370496 (-53))
  then S754_finite true 5422874289551483 (-53)
  else S754_finite true 9002784720406864 (-56).

(** The floats [295.0], [5.0] and [300.0]. *)
Definition c295 : spec_float := S754_finite false 5189694883102720 (-44).
Definition c5 : spec_float := S754_finite false 5629499534213120 (-50).
Definition c300 : spec_float := S754_finite false 5277655813324800 (-44).

Local Close Scope Z_scope.

(** ** Further conditions and samples *)

(** The assignments [pos[key] = value] that the loop of line 61 performs on
    the rows of a file, in the order of the rows. *)
Definition assignments (float : pystr → option f64) (rows : list row)
    : list (pystr * coords) :=
  omap (coord_entry float) rows.

(** The row has no usable (src, dst) pair. *)
Definition unusable (r : row) : Prop := ¬ ∃ u v, row_pair r u v.

(** The seven steps in the order of the script. *)
Definition all_steps : list step :=
  [LoadGraph; LoadCoordinates; FilterGraph; ComputePageRank; ScaleSizes;
   SelectLabels; Draw].

(** Some station named in a usable line row is the key of an accepted
    coordinate record. *)
Definition common_station (float : pystr → option f64)
    (line_rows coords_rows : list row) : Prop :=
  ∃ n, (∃ r u v, r ∈ line_rows ∧ row_pair r u v ∧ (n = u ∨ n = v))
       ∧ (∃ r c, r ∈ coords_rows ∧ coord_entry float r = Some (n, c)).




(** A function that is NaN on a NaN and [log10_sample] elsewhere. *)
Definition log10_nan_sample (x : f64) : f64 :=
  if is_nan x then S754_nan else log10_sample x.

(** * Properties *)

(** ** Properties of the Edge Loader *)

Section EdgeLoader.

Lemma elem_of_add_to {A} `{EqDecision A} (x y : A) (l : list A) :
  y ∈ add_to x l ↔ y = x ∨ y ∈ l.
Proof.
  unfold add_to. case_decide as Hin.
  - split; [auto | intros [-> | ?]; auto].
  - rewrite elem_of_app, list_elem_of_singleton. tauto.
Qed.

Lemma NoDup_add_to {A} `{EqDecision A} (x : A) (l : list A) :
  NoDup l → NoDup (add_to x l).
Proof.
  intros Hl. unfold add_to. case_decide as Hin; [done |].
  apply NoDup_app. split; [done |]. split.
  - intros y Hy ->%list_elem_of_singleton. done.
  - apply NoDup_singleton.
Qed.

Lemma add_to_idemp {A} `{EqDecision A} (x : A) (l : list A) :
  add_to x (add_to x l) = add_to x l.
Proof.
  unfold add_to at 1. rewrite decide_True; [done |].
  apply elem_of_add_to. by left.
Qed.

Lemma add_to_elem {A} `{EqDecision A} (x : A) (l : list A) :
  x ∈ l → add_to x l = l.
Proof. intros Hin. unfold add_to. by rewrite decide_True. Qed.

Lemma add_edge_idemp u v g : add_edge u v (add_edge u v g) = add_edge u v g.
Proof.
  unfold add_edge. cbn. f_equal.
  - rewrite (add_to_elem u); [apply add_to_idemp |].
    apply elem_of_add_to. right. apply elem_of_add_to. by left.
  - apply add_to_idemp.
Qed.

Lemma truthy_spec (v : option pystr) :
  truthy v = true ↔ ∃ s, v = Some s ∧ s ≠ [].
Proof.
  destruct v as [[| c s] |]; cbn.
  - split; [done |]. intros (s & [= <-] & Hs). done.
  - split; [| done]. intros _. by exists (c :: s).
  - split; [done |]. intros (s & ? & _). done.
Qed.

Lemma build_graph_row_pair r g u v :
  row_pair r u v → build_graph_row g r = add_edge u v g.
Proof.
  intros (Hu & Hv & Hun & Hvn). unfold build_graph_row.
  rewrite Hu, Hv. destruct u, v; done.
Qed.

Lemma build_graph_row_skip r g :
  (¬ ∃ u v, row_pair r u v) → build_graph_row g r = g.
Proof.
  intros Hno. unfold build_graph_row.
  destruct (truthy (row_get r col_src)) eqn:Hs; [| done].
  destruct (truthy (row_get r col_dst)) eqn:Hd; [| done].
  apply truthy_spec in Hs as (u & Hu & Hun).
  apply truthy_spec in Hd as (v & Hv & Hvn).
  destruct Hno. by exists u, v.
Qed.

Lemma build_graph_row_cases r g :
  (∃ u v, row_pair r u v ∧ build_graph_row g r = add_edge u v g)
  ∨ ((¬ ∃ u v, row_pair r u v) ∧ build_graph_row g r = g).
Proof.
  unfold build_graph_row.
  destruct (truthy (row_get r col_src)) eqn:Hs.
  - destruct (truthy (row_get r col_dst)) eqn:Hd.
    + apply truthy_spec in Hs as (u & Hu & Hun).
      apply truthy_spec in Hd as (v & Hv & Hvn).
      left. exists u, v. split; [done |]. by rewrite Hu, Hv.
    + right. split; [| done]. intros (u & v & _ & Hv & _ & Hvn).
      rewrite Hv in Hd. by destruct v.
  - right. split; [| done]. intros (u & v & Hu & _ & Hun & _).
    rewrite Hu in Hs. by destruct u.
Qed.

Lemma foldl_build_edges reader : ∀ g e,
  e ∈ edges (foldl build_graph_row g reader)
  ↔ e ∈ edges g ∨ ∃ r, r ∈ reader ∧ row_pair r e.1 e.2.
Proof.
  induction reader as [| r reader IH]; intros g e; cbn.
  - split; [auto |]. intros [? | (r & Hr & _)]; [done |]. by apply elem_of_nil in Hr.
  - rewrite IH. destruct (build_graph_row_cases r g)
      as [(u & v & Hp & ->) | (Hno & ->)]; cbn.
    + rewrite elem_of_add_to. split.
      * intros [[-> | ?] | (r' & Hr' & Hp')]; auto.
        -- right. exists r. split; [left | done].
        -- right. exists r'. split; [by right | done].
      * intros [? | (r' & Hr' & Hp')]; [auto |].
        apply elem_of_cons in Hr' as [-> | Hr'].
        -- left. left. destruct e as [a b]. cbn in Hp'.
           destruct Hp as (Hu & Hv & _), Hp' as (Ha & Hb & _). congruence.
        -- right. by exists r'.
    + split.
      * intros [? | (r' & Hr' & Hp')]; [auto |].
        right. exists r'. split; [by right | done].
      * intros [? | (r' & Hr' & Hp')]; [auto |].
        apply elem_of_cons in Hr' as [-> | Hr'].
        -- destruct Hno. by exists e.1, e.2.
        -- right. by exists r'.
Qed.

Lemma foldl_build_NoDup reader : ∀ g,
  NoDup (edges g) → NoDup (edges (foldl build_graph_row g reader)).
Proof.
  induction reader as [| r reader IH]; intros g Hg; cbn; [done |].
  apply IH. destruct (build_graph_row_cases r g)
    as [(u & v & _ & ->) | (_ & ->)]; [| done].
  cbn. by apply NoDup_add_to.
Qed.

End EdgeLoader.

(** C4. The graph the Edge Loader builds from a sequence of rows, starting
    from the empty graph of line 85, has as edges exactly the pairs
    (src, dst) of the rows in which both cells are present and non-empty,
    each once; a row lacking either cell leaves the graph as it is, and
    adding an edge that is already there changes neither the edges nor,
    when repeated, the graph. *)
Theorem edge_loader_exact (reader : list row) :
  (∀ u v, (u, v) ∈ edges (build_graph_from_csv (Some reader) empty_graph).1
          ↔ ∃ r, r ∈ reader ∧ row_pair r u v)
  ∧ NoDup (edges (build_graph_from_csv (Some reader) empty_graph).1)
  ∧ (build_graph_from_csv (Some reader) empty_graph).2 = true
  ∧ (∀ g r, (¬ ∃ u v, row_pair r u v) → build_graph_row g r = g)
  ∧ (∀ g u v, (u, v) ∈ edges g → edges (add_edge u v g) = edges g)
  ∧ (∀ g u v, add_edge u v (add_edge u v g) = add_edge u v g).
Proof.
  cbn. repeat split.
  - intros He. apply foldl_build_edges in He as [He | He]; [| done].
    by apply elem_of_nil in He.
  - intros He. apply foldl_build_edges. by right.
  - apply foldl_build_NoDup. cbn. constructor.
  - intros g r. apply build_graph_row_skip.
  - intros g u v Hin. cbn. by apply add_to_elem.
  - intros g u v. apply add_edge_idemp.
Qed.

Example edge_loader_sample :
  let reader := [line_row (py "A") (py "B"); line_row (py "A") [];
                 line_row (py "B") (py "C"); line_row (py "A") (py "B")] in
  build_graph_from_csv (Some reader) empty_graph
  = (mkDiGraph [py "A"; py "B"; py "C"]
               [(py "A", py "B"); (py "B", py "C")], true).
Proof. vm_compute. reflexivity. Qed.

(** ** Properties of the Coordinate Loader *)

Section CoordinateLoaderProperties.

Variable float : pystr → option f64.

Lemma endswith_iff (s : pystr) (c : N) :
  endswith s c = true ↔ ∃ base, s = base ++ [c].
Proof.
  unfold endswith. destruct (last s) as [d |] eqn:Hlast.
  - apply last_Some in Hlast as [base ->]. rewrite N.eqb_eq. split.
    + intros ->. by exists base.
    + intros [base' Heq]. by apply app_inj_tail in Heq as [_ ->].
  - split; [done |]. intros [base ->]. by rewrite last_snoc in Hlast.
Qed.

Lemma normalize_strip (base : pystr) :
  normalize (base ++ [designator]) = base.
Proof.
  unfold normalize. rewrite (proj2 (endswith_iff _ _)) by eauto.
  apply removelast_last.
Qed.

Lemma normalize_keep (s : pystr) :
  (¬ ∃ base, s = base ++ [designator]) → normalize s = s.
Proof.
  intros Hno. unfold normalize.
  destruct (endswith s designator) eqn:He; [| done].
  by apply endswith_iff in He.
Qed.

Lemma cell_truthy r k s : cell r k s → truthy (row_get r k) = true.
Proof. intros [Hget Hs]. apply truthy_spec. eauto. Qed.

Lemma coord_entry_Some r key x y :
  coord_entry float r = Some (key, (x, y))
  ↔ ∃ name lon lat, cell r col_name name ∧ cell r col_lng lon
      ∧ cell r col_lat lat ∧ float lon = Some x ∧ float lat = Some y
      ∧ key = normalize name.
Proof.
  unfold coord_entry. split.
  - destruct (truthy (row_get r col_name)) eqn:Hn; [| done].
    destruct (truthy (row_get r col_lng)) eqn:Hlo; [| done].
    destruct (truthy (row_get r col_lat)) eqn:Hla; [| done].
    apply truthy_spec in Hn as (name & Hn & ?).
    apply truthy_spec in Hlo as (lon & Hlo & ?).
    apply truthy_spec in Hla as (lat & Hla & ?).
    rewrite Hn, Hlo, Hla. cbn.
    destruct (float lon) as [x' |] eqn:Hx; [| done].
    destruct (float lat) as [y' |] eqn:Hy; [| done].
    cbn. intros [= <- <- <-]. exists name, lon, lat. by repeat split.
  - intros (name & lon & lat & Hn & Hlo & Hla & Hx & Hy & ->).
    rewrite (cell_truthy _ _ _ Hn), (cell_truthy _ _ _ Hlo),
      (cell_truthy _ _ _ Hla).
    destruct Hn as [-> _], Hlo as [-> _], Hla as [-> _]. cbn.
    by rewrite Hx, Hy.
Qed.

Lemma coord_entry_accepted r :
  is_Some (coord_entry float r) ↔ accepted float r.
Proof.
  split.
  - intros [[key [x y]] He]. apply coord_entry_Some in He
      as (name & lon & lat & ? & ? & ? & Hx & Hy & _).
    exists name, lon, lat. rewrite Hx, Hy. do 3 (split; [done |]).
    split; eauto.
  - intros (name & lon & lat & ? & ? & ? & [x Hx] & [y Hy]).
    exists (normalize name, (x, y)). apply coord_entry_Some.
    by exists name, lon, lat.
Qed.

Lemma load_row_skip pos r :
  coord_entry float r = None → load_row float pos r = pos.
Proof. intros He. unfold load_row. by rewrite He. Qed.

Lemma foldl_load_row_app pos rows1 rows2 :
  foldl (load_row float) pos (rows1 ++ rows2)
  = foldl (load_row float) (foldl (load_row float) pos rows1) rows2.
Proof. apply foldl_app. Qed.

(** Rows after which a key is no longer assigned leave its entry alone. *)
Lemma foldl_load_row_untouched key rows : ∀ pos,
  (∀ r v, r ∈ rows → coord_entry float r ≠ Some (key, v)) →
  foldl (load_row float) pos rows !! key = pos !! key.
Proof.
  induction rows as [| r rows IH]; intros pos Hno; cbn; [done |].
  rewrite IH.
  - unfold load_row. destruct (coord_entry float r) as [[k v] |] eqn:He;
      [| done].
    apply lookup_insert_ne. intros ->. eapply Hno; [left | done].
  - intros r' v Hr'. apply Hno. by right.
Qed.

(** C5. For an accepted coordinate record the entry is stored under the
    station name without its last character when that character is the
    designator U+7AD9 (one character only, whatever precedes it), and under
    the unchanged name otherwise. *)
Theorem coordinate_key_normalized (pos : gmap (list N) coords) (r : row)
    (name key : pystr) (value : coords) :
  row_get r col_name = Some name →
  coord_entry float r = Some (key, value) →
  load_row float pos r = <[key := value]> pos
  ∧ (∀ base, name = base ++ [designator] → key = base)
  ∧ ((¬ ∃ base, name = base ++ [designator]) → key = name).
Proof.
  intros Hname He. split; [| split].
  - unfold load_row. by rewrite He.
  - intros base ->. destruct value as [x y].
    apply coord_entry_Some in He as (name' & _ & _ & [Hn _] & _ & _ & _ & _ & ->).
    rewrite Hname in Hn. injection Hn as <-. apply normalize_strip.
  - intros Hno. destruct value as [x y].
    apply coord_entry_Some in He as (name' & _ & _ & [Hn _] & _ & _ & _ & _ & ->).
    rewrite Hname in Hn. injection Hn as <-. by apply normalize_keep.
Qed.

(** C6, as the code has it. A record contributes an entry exactly when its
    name, longitude and latitude cells are all present and non-empty and
    [float] returns for both coordinate cells, whatever it returns (an
    infinity or a NaN included); any other record is skipped: it changes
    neither the map so far nor the result of the loader, which always
    returns a map for a readable file. *)
Theorem coordinate_row_accepted_iff (r : row) :
  (is_Some (coord_entry float r) ↔ accepted float r)
  ∧ (∀ key value pos, coord_entry float r = Some (key, value) →
       load_row float pos r !! key = Some value)
  ∧ (∀ pos, ¬ accepted float r → load_row float pos r = pos)
  ∧ (∀ rows1 rows2, ¬ accepted float r →
       load_coordinates_from_csv float (Some (rows1 ++ r :: rows2))
       = load_coordinates_from_csv float (Some (rows1 ++ rows2)))
  ∧ (∀ rows, is_Some (load_coordinates_from_csv float (Some rows))).
Proof.
  split; [apply coord_entry_accepted |]. split; [| split; [| split]].
  - intros key value pos He. unfold load_row. rewrite He.
    apply lookup_insert_eq.
  - intros pos Hno. apply load_row_skip.
    destruct (coord_entry float r) eqn:He; [| done].
    destruct Hno. apply coord_entry_accepted. by rewrite He.
  - intros rows1 rows2 Hno. cbn. f_equal.
    rewrite !foldl_load_row_app. cbn. f_equal. apply load_row_skip.
    destruct (coord_entry float r) eqn:He; [| done].
    destruct Hno. apply coord_entry_accepted. by rewrite He.
  - intros rows. cbn. eauto.
Qed.

(** C10. When a valid record is followed only by records that do not store
    under its normalized name, the map returned by the loader holds that
    record's coordinates under the name, whatever earlier records stored
    there; and a name with the designator appended is stored under the same
    key as the bare name. *)
Theorem later_row_overwrites (rows1 rows2 : list row) (r : row)
    (key : pystr) (value : coords) :
  coord_entry float r = Some (key, value) →
  (∀ r' v, r' ∈ rows2 → coord_entry float r' ≠ Some (key, v)) →
  (∃ pos, load_coordinates_from_csv float (Some (rows1 ++ r :: rows2))
          = Some pos ∧ pos !! key = Some value)
  ∧ (∀ s, (¬ ∃ base, s = base ++ [designator]) →
       normalize (s ++ [designator]) = normalize s).
Proof.
  intros He Hlater. split.
  - eexists. split; [reflexivity |].
    rewrite foldl_load_row_app. cbn.
    rewrite foldl_load_row_untouched by done.
    unfold load_row. rewrite He. apply lookup_insert_eq.
  - intros s Hs. by rewrite normalize_strip, normalize_keep.
Qed.

End CoordinateLoaderProperties.

(** *** The loader on sample records, with [float] on ASCII text *)

Example float_samples :
  PyFloat.float (py "116.4") = Some lon_sample
  ∧ PyFloat.float (py " 39.9 ") = Some lat_sample
  ∧ PyFloat.float (py "-Inf") = Some (S754_infinity true)
  ∧ PyFloat.float (py "nan") = Some S754_nan
  ∧ PyFloat.float (py "1e999") = Some (S754_infinity false)
  ∧ PyFloat.float (py "12,5") = None
  ∧ PyFloat.float (py "1e") = None.
Proof. vm_compute. repeat split. Qed.

Lemma coordinate_key_normalized_witness :
  load_row PyFloat.float ∅
    (coord_row (beijing ++ [designator]) (py "116.4") (py "39.9"))
  = <[beijing := (lon_sample, lat_sample)]> ∅
  ∧ (∀ base, beijing ++ [designator] = base ++ [designator] → beijing = base)
  ∧ ((¬ ∃ base, beijing ++ [designator] = base ++ [designator]) →
     beijing = beijing ++ [designator]).
Proof.
  apply (coordinate_key_normalized PyFloat.float ∅
           (coord_row (beijing ++ [designator]) (py "116.4") (py "39.9"))).
  - vm_compute. reflexivity.
  - vm_compute. reflexivity.
Defined.

(** A record whose longitude cell reads [inf] is stored, though the text
    does not parse as a finite number: the condition of C6 as the
    specification words it is not the one the code applies. *)
Lemma coordinate_row_infinite_accepted :
  ¬ (∀ r, is_Some (coord_entry PyFloat.float r)
          ↔ accepted_as_specified PyFloat.float r).
Proof.
  intros Hall.
  destruct (Hall (coord_row (py "A") (py "inf") (py "0"))) as [Hspec _].
  destruct Hspec as (name & lon & lat & _ & [Hlon _] & _ & Hfin & _).
  - vm_compute. eauto.
  - vm_compute in Hlon. injection Hlon as <-.
    destruct Hfin as (x & Hx & Hfin). vm_compute in Hx.
    injection Hx as <-. discriminate Hfin.
Qed.

Lemma later_row_overwrites_witness :
  (∃ pos,
     load_coordinates_from_csv PyFloat.float
       (Some [coord_row (beijing ++ [designator]) (py "1") (py "2");
              coord_row beijing (py "116.4") (py "39.9");
              coord_row beijing (py "x") (py "0")])
     = Some pos
     ∧ pos !! beijing = Some (lon_sample, lat_sample))
  ∧ (∀ s, (¬ ∃ base, s = base ++ [designator]) →
       normalize (s ++ [designator]) = normalize s).
Proof.
  apply (later_row_overwrites PyFloat.float
           [coord_row (beijing ++ [designator]) (py "1") (py "2")]
           [coord_row beijing (py "x") (py "0")]
           (coord_row beijing (py "116.4") (py "39.9"))).
  - vm_compute. reflexivity.
  - intros r' v ->%list_elem_of_singleton. vm_compute. discriminate.
Defined.

(** ** Properties of the Graph Filter *)

Section GraphFilter.

Variable G : DiGraph.
Variable pos : gmap (list N) coords.

Lemma elem_of_valid_nodes n :
  n ∈ valid_nodes G pos ↔ n ∈ nodes G ∧ is_Some (pos !! n).
Proof. unfold valid_nodes. rewrite list_elem_of_filter. tauto. Qed.

Lemma valid_nodes_set :
  list_to_set (valid_nodes G pos) =@{gset (list N)}
  list_to_set (nodes G) ∩ dom pos.
Proof.
  apply set_eq. intros n.
  rewrite elem_of_intersection, !elem_of_list_to_set, elem_of_dom.
  apply elem_of_valid_nodes.
Qed.

Lemma elem_of_nodes_G_filtered n :
  n ∈ nodes (G_filtered G pos) ↔ n ∈ nodes G ∧ is_Some (pos !! n).
Proof.
  unfold G_filtered, subgraph. cbn.
  rewrite list_elem_of_filter, elem_of_valid_nodes. tauto.
Qed.

Lemma elem_of_edges_G_filtered u v :
  (u, v) ∈ edges (G_filtered G pos)
  ↔ (u, v) ∈ edges G ∧ u ∈ valid_nodes G pos ∧ v ∈ valid_nodes G pos.
Proof.
  unfold G_filtered, subgraph. cbn. rewrite list_elem_of_filter. cbn. tauto.
Qed.

Lemma lookup_pos_filtered k c :
  pos_filtered G pos !! k = Some c ↔ pos !! k = Some c ∧ k ∈ nodes G.
Proof.
  unfold pos_filtered, restrict_pos.
  rewrite map_lookup_filter_Some. cbn. rewrite elem_of_valid_nodes.
  split; [tauto |]. intros [Hk Hn]. rewrite Hk. eauto.
Qed.

Lemma graph_filter_returns :
  valid_nodes G pos ≠ [] →
  graph_filter G pos
  = ([FilterGraph], inl (G_filtered G pos, pos_filtered G pos)).
Proof.
  intros Hne. unfold graph_filter. by destruct (valid_nodes G pos).
Qed.

Lemma valid_nodes_nil :
  valid_nodes G pos = [] ↔ list_to_set (nodes G) ∩ dom pos =@{gset (list N)} ∅.
Proof.
  rewrite <- valid_nodes_set. split.
  - by intros ->.
  - intros Hempty. destruct (valid_nodes G pos) as [| n l]; [done |].
    exfalso. apply (not_elem_of_empty (C:=gset (list N)) n).
    rewrite <- Hempty. set_solver.
Qed.

(** C2. The Graph Filter, which returns whenever some node of the graph has
    coordinates, returns a graph whose node set is the intersection of the
    node set of the graph with the key set of the coordinate map, whose
    edges are the edges of the graph with both endpoints in that
    intersection, and a coordinate map that holds exactly the entries of the
    coordinate map whose key is in that intersection. *)
Theorem graph_filter_induced :
  (list_to_set (nodes G) ∩ dom pos ≠@{gset (list N)} ∅ →
   graph_filter G pos
   = ([FilterGraph], inl (G_filtered G pos, pos_filtered G pos)))
  ∧ list_to_set (nodes (G_filtered G pos)) =@{gset (list N)}
      list_to_set (nodes G) ∩ dom pos
  ∧ (∀ u v, (u, v) ∈ edges (G_filtered G pos)
            ↔ (u, v) ∈ edges G
              ∧ u ∈ list_to_set (nodes G) ∩ dom pos
              ∧ v ∈ list_to_set (nodes G) ∩ dom pos)
  ∧ (∀ k c, pos_filtered G pos !! k = Some c
            ↔ pos !! k = Some c ∧ k ∈ list_to_set (nodes G) ∩ dom pos).
Proof.
  split; [| split; [| split]].
  - intros Hne. apply graph_filter_returns. by rewrite valid_nodes_nil.
  - apply set_eq. intros n.
    rewrite elem_of_intersection, !elem_of_list_to_set, elem_of_dom.
    apply elem_of_nodes_G_filtered.
  - intros u v. rewrite elem_of_edges_G_filtered, <- valid_nodes_set,
      !elem_of_list_to_set. tauto.
  - intros k c. rewrite lookup_pos_filtered, elem_of_intersection,
      elem_of_list_to_set, elem_of_dom.
    split; [| tauto]. intros [Hk Hn]. rewrite Hk. eauto.
Qed.

End GraphFilter.

Example graph_filter_sample :
  let G := mkDiGraph [py "A"; py "B"; py "D"]
                     [(py "A", py "B"); (py "B", py "D")] in
  let pos : gmap (list N) coords :=
    {[ py "A" := (lon_sample, lat_sample); py "B" := (lon_sample, lat_sample);
       py "C" := (lon_sample, lat_sample) ]} in
  (graph_filter G pos).2
  = inl (mkDiGraph [py "A"; py "B"] [(py "A", py "B")],
         {[ py "A" := (lon_sample, lat_sample);
            py "B" := (lon_sample, lat_sample) ]}).
Proof. vm_compute. reflexivity. Qed.

(** ** The empty intersection *)

Section EmptyIntersection.

Variable float : pystr → option f64.
Variable pagerank : DiGraph → option (list item).
Variable log10 : f64 → f64.

(** C9. When no node of the graph is a key of the coordinate map, the Graph
    Filter stops the run with [sys.exit()] after the empty-intersection
    diagnostic: steps 3 to 7 enter the filter step only, so neither the
    ranking nor the drawing is reached; and the script, run on files that
    load to such a graph and a non-empty map, stops in the same way after
    its first three steps. *)
Theorem empty_intersection_exits (G : DiGraph) (pos : gmap (list N) coords) :
  list_to_set (nodes G) ∩ dom pos =@{gset (list N)} ∅ →
  graph_filter G pos = ([FilterGraph], inr (Exit EmptyIntersection))
  ∧ filter_rank_draw pagerank log10 G pos
    = ([FilterGraph], inr (Exit EmptyIntersection))
  ∧ (∀ line_rows coords_rows,
       (build_graph_from_csv (Some line_rows) empty_graph).1 = G →
       load_coordinates_from_csv float (Some coords_rows) = Some pos →
       pos ≠ ∅ →
       main float pagerank log10 (Some line_rows) (Some coords_rows)
       = ([LoadGraph; LoadCoordinates; FilterGraph], Exit EmptyIntersection)).
Proof.
  intros Hempty%valid_nodes_nil.
  assert (graph_filter G pos = ([FilterGraph], inr (Exit EmptyIntersection)))
    as Hfilter by (unfold graph_filter; by rewrite Hempty).
  assert (filter_rank_draw pagerank log10 G pos
          = ([FilterGraph], inr (Exit EmptyIntersection))) as Hrest
    by (unfold filter_rank_draw; by rewrite Hfilter).
  split; [done |]. split; [done |].
  intros line_rows coords_rows HG Hpos Hne.
  unfold main, script. cbn in HG. cbn -[load_coordinates_from_csv].
  rewrite HG, Hpos. rewrite decide_False by done.
  by rewrite Hrest.
Qed.

End EmptyIntersection.

Lemma empty_intersection_exits_witness :
  graph_filter (mkDiGraph [py "A"; py "B"] [(py "A", py "B")])
    {[ py "C" := (lon_sample, lat_sample) ]}
  = ([FilterGraph], inr (Exit EmptyIntersection))
  ∧ filter_rank_draw (λ _, None) log10_sample
      (mkDiGraph [py "A"; py "B"] [(py "A", py "B")])
      {[ py "C" := (lon_sample, lat_sample) ]}
    = ([FilterGraph], inr (Exit EmptyIntersection))
  ∧ (∀ line_rows coords_rows,
       (build_graph_from_csv (Some line_rows) empty_graph).1
       = mkDiGraph [py "A"; py "B"] [(py "A", py "B")] →
       load_coordinates_from_csv PyFloat.float (Some coords_rows)
       = Some {[ py "C" := (lon_sample, lat_sample) ]} →
       {[ py "C" := (lon_sample, lat_sample) ]} ≠@{gmap (list N) coords} ∅ →
       main PyFloat.float (λ _, None) log10_sample
         (Some line_rows) (Some coords_rows)
       = ([LoadGraph; LoadCoordinates; FilterGraph], Exit EmptyIntersection)).
Proof.
  apply (empty_intersection_exits PyFloat.float (λ _, None) log10_sample
           (mkDiGraph [py "A"; py "B"] [(py "A", py "B")])
           {[ py "C" := (lon_sample, lat_sample) ]}).
  vm_compute. reflexivity.
Defined.

Example script_empty_intersection :
  main PyFloat.float (λ _, None) log10_sample
    (Some [line_row (py "A") (py "B")])
    (Some [coord_row (py "C") (py "116.4") (py "39.9")])
  = ([LoadGraph; LoadCoordinates; FilterGraph], Exit EmptyIntersection).
Proof. vm_compute. reflexivity. Qed.

(** ** Properties of Visual Scaling *)

Section VisualScalingProperties.

Lemma SFcompare_refl (x : f64) :
  is_nan x = false → SFcompare x x = Some Eq.
Proof.
  destruct x as [s | s | | s m e]; cbn; try done.
  - by destruct s.
  - intros _. rewrite Z.compare_refl, Pos.compare_cont_refl. by destruct s.
Qed.

Lemma np_minimum_diag (x : f64) : np_minimum x x = x.
Proof.
  unfold np_minimum. destruct (is_nan x) eqn:Hx.
  - by destruct x.
  - by rewrite SFcompare_refl.
Qed.

Lemma np_maximum_diag (x : f64) : np_maximum x x = x.
Proof.
  unfold np_maximum. destruct (is_nan x) eqn:Hx.
  - by destruct x.
  - by rewrite SFcompare_refl.
Qed.

Lemma fold_left_diag (f : f64 → f64 → f64) (l : f64) (a : list f64) :
  f l l = l → Forall (eq l) a → fold_left f a l = l.
Proof.
  intros Hf. induction 1 as [| x a <- _ IH]; cbn; [done |]. by rewrite Hf.
Qed.

(** [x - x] is zero for a finite [x] and NaN otherwise. *)
Lemma f64_sub_diag (x : f64) :
  f64_sub x x = S754_zero false ∨ f64_sub x x = S754_nan.
Proof.
  destruct x as [s | s | | s m e]; cbn.
  - left. by destruct s.
  - right. by destruct s.
  - by right.
  - left. unfold f64_sub, SFsub. by rewrite Z.sub_diag.
Qed.

(** The quotient of line 117 when the largest and the smallest log-value
    are the value itself: zero by zero, or NaN by NaN. *)
Lemma norm_size_degenerate (l : f64) :
  f64_div (f64_sub l l) (f64_sub l l) = S754_nan.
Proof. by destruct (f64_sub_diag l) as [-> | ->]. Qed.

Lemma display_size_nan (c d : f64) :
  f64_add (f64_mul S754_nan c) d = S754_nan.
Proof. done. Qed.

Lemma scale_sizes_all_equal (sizes_log : list f64) (l : f64) :
  sizes_log ≠ [] →
  Forall (eq l) sizes_log →
  scale_sizes sizes_log = Some (replicate (length sizes_log) S754_nan).
Proof.
  intros Hne Hall. unfold scale_sizes.
  destruct sizes_log as [| x a]; [done |].
  pose proof Hall as Hall'. apply Forall_cons in Hall' as [<- Ha].
  cbn [np_min np_max mbind option_bind].
  rewrite !fold_left_diag
    by (done || apply np_minimum_diag || apply np_maximum_diag).
  f_equal. rewrite List.map_map.
  clear Ha Hne. induction Hall as [| y b <- _ IH]; [done |].
  cbn [List.map length replicate]. rewrite norm_size_degenerate.
  by rewrite IH.
Qed.

(** C3, as the code behaves. When all log-scaled values are equal, the
    normalization of line 117 divides zero by zero (or NaN by NaN), and
    every display size is NaN, not the midpoint 152.5 of the display
    range. *)
Theorem degenerate_scaling_is_nan (sizes_log : list f64) (l : f64) :
  sizes_log ≠ [] →
  Forall (eq l) sizes_log →
  scale_sizes sizes_log = Some (replicate (length sizes_log) S754_nan)
  ∧ ∀ size, size ∈ replicate (length sizes_log) S754_nan →
      size ≠ f64_of_decimal false 1525 (-1).
Proof.
  intros Hne Hall. split; [by eapply scale_sizes_all_equal |].
  intros size [-> _]%elem_of_replicate. vm_compute. discriminate.
Qed.

End VisualScalingProperties.

Lemma degenerate_scaling_is_nan_witness :
  scale_sizes [S754_zero false; S754_zero false]
  = Some (replicate (length [S754_zero false; S754_zero false]) S754_nan)
  ∧ ∀ size,
      size ∈ replicate (length [S754_zero false; S754_zero false]) S754_nan →
      size ≠ f64_of_decimal false 1525 (-1).
Proof.
  apply (degenerate_scaling_is_nan [S754_zero false; S754_zero false]
           (S754_zero false)).
  - discriminate.
  - repeat constructor.
Defined.

(** A filtered graph with a single station: whatever score the ranking
    gives it and whatever [np.log10] returns, its display size is NaN. *)
Example single_station_size (log10 : f64 → f64) (score : f64) :
  node_sizes_scaled log10 [score] = Some [S754_nan].
Proof.
  unfold node_sizes_scaled, sizes_log. cbn [List.map].
  apply (scale_sizes_all_equal [_] (log10 (f64_add score epsilon)));
    [done | by repeat constructor].
Qed.

(** ** Properties of the Label Selector *)

Section FloatOrder.

Ltac compare_cases :=
  repeat match goal with
  | |- context [Pos.compare_cont Eq ?a ?b] =>
      change (Pos.compare_cont Eq a b) with (Pos.compare a b)
  | H : context [Pos.compare_cont Eq ?a ?b] |- _ =>
      change (Pos.compare_cont Eq a b) with (Pos.compare a b) in H
  end;
  repeat match goal with
  | |- context [Z.compare ?a ?b] => destruct (Z.compare_spec a b)
  | H : context [Z.compare ?a ?b] |- _ => destruct (Z.compare_spec a b)
  | |- context [Pos.compare ?a ?b] => destruct (Pos.compare_spec a b)
  | H : context [Pos.compare ?a ?b] |- _ => destruct (Pos.compare_spec a b)
  end;
  subst; cbn in *; try done; try lia.

Ltac float_cases :=
  unfold f64_lt, SFleb, SFltb, SFeqb, SFcompare, is_nan;
  repeat match goal with
  | x : f64 |- _ => destruct x as [[] | [] | | [] ? ?]
  end;
  cbn; try done; intros; compare_cases.

Lemma f64_lt_le (a b : f64) : f64_lt a b = true → SFleb a b = true.
Proof. float_cases. Qed.

Lemma f64_not_lt_le (a b : f64) :
  is_nan a = false → is_nan b = false →
  f64_lt b a = false → SFleb a b = true.
Proof. float_cases. Qed.

Lemma SFleb_trans (a b c : f64) :
  SFleb a b = true → SFleb b c = true → SFleb a c = true.
Proof. float_cases. Qed.

Lemma SFeqb_not_lt (a b v : f64) :
  SFeqb a v = true → SFeqb b v = true → f64_lt a b = false.
Proof. float_cases. Qed.

End FloatOrder.

Section LabelSelector.

Lemma insert_sorted_Permutation x l : insert_sorted x l ≡ₚ x :: l.
Proof.
  induction l as [| y l IH]; cbn; [done |].
  destruct (f64_lt y.2 x.2); [| done].
  rewrite IH. apply Permutation_swap.
Qed.

Lemma sort_by_score_Permutation l : sort_by_score l ≡ₚ l.
Proof.
  induction l as [| x l IH]; cbn; [done |].
  fold (sort_by_score l). by rewrite insert_sorted_Permutation, IH.
Qed.

Lemma sorted_reverse_Permutation l : sorted_reverse l ≡ₚ l.
Proof.
  unfold sorted_reverse.
  by rewrite reverse_Permutation, sort_by_score_Permutation,
    reverse_Permutation.
Qed.

Lemma insert_sorted_ascending x l :
  is_nan x.2 = false → no_nan l →
  StronglySorted score_le l → StronglySorted score_le (insert_sorted x l).
Proof.
  intros Hx Hl Hs. induction Hs as [| y l Hs IH Hy]; cbn.
  - repeat constructor.
  - apply Forall_cons in Hl as [Hyn Hl].
    destruct (f64_lt y.2 x.2) eqn:Hlt.
    + constructor; [by apply IH |].
      rewrite insert_sorted_Permutation. constructor; [| done].
      by apply f64_lt_le.
    + assert (score_le x y) as Hxy by by apply f64_not_lt_le.
      constructor; [by constructor |]. constructor; [done |].
      eapply Forall_impl; [exact Hy |]. intros z Hyz.
      unfold score_le in *. by eapply SFleb_trans.
Qed.

Lemma sort_by_score_ascending l :
  no_nan l → StronglySorted score_le (sort_by_score l).
Proof.
  induction 1 as [| x l Hx Hl IH]; cbn; [constructor |].
  fold (sort_by_score l). apply insert_sorted_ascending; [done | | done].
  unfold no_nan. by rewrite sort_by_score_Permutation.
Qed.

Lemma StronglySorted_reverse (l : list item) :
  StronglySorted score_le l → StronglySorted score_ge (reverse l).
Proof.
  induction 1 as [| x l Hs IH Hx]; [constructor |].
  rewrite reverse_cons. apply StronglySorted_app_2; [| done | repeat constructor].
  intros a b Ha ->%list_elem_of_singleton.
  rewrite elem_of_reverse in Ha. rewrite Forall_forall in Hx. by apply Hx.
Qed.

Lemma sorted_reverse_descending l :
  no_nan l → StronglySorted score_ge (sorted_reverse l).
Proof.
  intros Hl. apply StronglySorted_reverse, sort_by_score_ascending.
  unfold no_nan. by rewrite Forall_reverse.
Qed.

(** Insertion moves an item only in front of items with a strictly greater
    score, so it passes none of the items tied with it. *)
Lemma insert_sorted_tied v x l :
  filter (tied v) (insert_sorted x l) = filter (tied v) (x :: l).
Proof.
  induction l as [| y l IH]; cbn; [done |].
  destruct (f64_lt y.2 x.2) eqn:Hlt; [| done].
  rewrite filter_cons, IH, !filter_cons.
  destruct (decide (tied v y)) as [Hy |], (decide (tied v x)) as [Hx |];
    try done.
  unfold tied in *. by rewrite (SFeqb_not_lt _ _ _ Hy Hx) in Hlt.
Qed.

Lemma sort_by_score_tied v l :
  filter (tied v) (sort_by_score l) = filter (tied v) l.
Proof.
  induction l as [| x l IH]; cbn; [done |]. fold (sort_by_score l).
  by rewrite insert_sorted_tied, !filter_cons, IH.
Qed.

Lemma sorted_reverse_tied v l :
  filter (tied v) (sorted_reverse l) = filter (tied v) l.
Proof.
  unfold sorted_reverse.
  by rewrite filter_reverse, sort_by_score_tied, filter_reverse,
    reverse_involutive.
Qed.

Lemma filter_prefix (P : item → Prop) `{∀ x, Decision (P x)} (l1 l2 : list item) :
  l1 `prefix_of` l2 → filter P l1 `prefix_of` filter P l2.
Proof. intros [k ->]. rewrite filter_app. by eexists. Qed.

(** C8. The Label Selector returns the first [min(15, n)] items of the score
    map sorted by score: a list of that length, in which no item has a
    smaller score than a later one, and in which items of equal score come
    in the order the score map has them; this on a score map without NaN,
    as scores are. *)
Theorem label_selector_top_k (pagerank_scores : list item) :
  no_nan pagerank_scores →
  length (label_set pagerank_scores) = min 15 (length pagerank_scores)
  ∧ label_set pagerank_scores = take 15 (sorted_stations pagerank_scores)
  ∧ sorted_stations pagerank_scores ≡ₚ pagerank_scores
  ∧ StronglySorted score_ge (sorted_stations pagerank_scores)
  ∧ StronglySorted score_ge (label_set pagerank_scores)
  ∧ (∀ v, filter (tied v) (sorted_stations pagerank_scores)
          = filter (tied v) pagerank_scores)
  ∧ (∀ v, filter (tied v) (label_set pagerank_scores)
          `prefix_of` filter (tied v) pagerank_scores).
Proof.
  intros Hnan. unfold label_set, sorted_stations, top_k.
  pose proof (sorted_reverse_descending _ Hnan) as Hdesc.
  repeat split.
  - rewrite length_take. f_equal.
    apply Permutation_length, sorted_reverse_Permutation.
  - apply sorted_reverse_Permutation.
  - done.
  - rewrite <- (take_drop 15 (sorted_reverse pagerank_scores)) in Hdesc.
    by apply StronglySorted_app_1_l in Hdesc.
  - intros v. apply sorted_reverse_tied.
  - intros v. rewrite <- (sorted_reverse_tied v pagerank_scores).
    apply filter_prefix, prefix_take.
Qed.

End LabelSelector.

Lemma label_selector_top_k_witness :
  let scores : list item :=
    [(py "A", S754_finite false 3 0); (py "B", S754_finite false 5 0);
     (py "C", S754_finite false 3 0); (py "D", S754_finite false 5 0)] in
  length (label_set scores) = min 15 (length scores)
  ∧ label_set scores = take 15 (sorted_stations scores)
  ∧ sorted_stations scores ≡ₚ scores
  ∧ StronglySorted score_ge (sorted_stations scores)
  ∧ StronglySorted score_ge (label_set scores)
  ∧ (∀ v, filter (tied v) (sorted_stations scores) = filter (tied v) scores)
  ∧ (∀ v, filter (tied v) (label_set scores)
          `prefix_of` filter (tied v) scores).
Proof.
  apply (label_selector_top_k
           [(py "A", S754_finite false 3 0); (py "B", S754_finite false 5 0);
            (py "C", S754_finite false 3 0); (py "D", S754_finite false 5 0)]).
  repeat constructor.
Defined.

Example label_selector_sample :
  labels_to_draw
    [(py "A", S754_finite false 3 0); (py "B", S754_finite false 5 0);
     (py "C", S754_finite false 3 0); (py "D", S754_finite false 5 0)]
  = [py "B"; py "D"; py "A"; py "C"].
Proof. vm_compute. reflexivity. Qed.

(** * Visual Scaling in binary64 arithmetic

    The operations of [SpecFloat] round the exact result to nearest, ties to
    even; rounding is monotone and leaves representable numbers unchanged,
    which bounds the display sizes and makes them monotone. *)

Local Open Scope Z_scope.

Ltac pow_atoms :=
  repeat match goal with
  | H : context [2 ^ ?e] |- _ =>
      let A := fresh "pw" in set (A := 2 ^ e) in *; clearbody A
  | |- context [2 ^ ?e] =>
      let A := fresh "pw" in set (A := 2 ^ e) in *; clearbody A
  end.

(** ** The integer part with a sticky bit *)

Lemma st_nonneg N D : 0 <= N -> 0 < D -> 0 <= st N D.
Proof.
  intros. unfold st. pose proof (Z.div_pos N D ltac:(lia) ltac:(lia)).
  destruct (N mod D =? 0); lia.
Qed.

Lemma st_scale N D k : 0 < D -> 0 < k -> st (N * k) (D * k) = st N D.
Proof.
  intros HD Hk. unfold st.
  rewrite Z.div_mul_cancel_r by lia.
  rewrite Z.mul_mod_distr_r by lia.
  destruct (Z.eqb_spec (N mod D) 0) as [-> | Hne]; [reflexivity |].
  destruct (Z.eqb_spec (N mod D * k) 0); [nia | reflexivity].
Qed.

Lemma div_le_cross N1 D1 N2 D2 :
  0 < D1 -> 0 < D2 -> N1 * D2 <= N2 * D1 -> N1 / D1 <= N2 / D2.
Proof.
  intros H1 H2 Hle.
  pose proof (Z.div_mod N2 D2 ltac:(lia)) as E2.
  pose proof (Z.mod_pos_bound N2 D2 H2) as B2.
  assert (N1 / D1 < N2 / D2 + 1); [| lia].
  apply Z.div_lt_upper_bound; [done |].
  apply (Z.mul_lt_mono_pos_r D2); [done |].
  assert (N2 * D1 < D1 * (N2 / D2 + 1) * D2); [| lia].
  assert (N2 < D2 * (N2 / D2 + 1)) by lia. nia.
Qed.

Lemma st_mono N1 D1 N2 D2 :
  0 < D1 -> 0 < D2 -> N1 * D2 <= N2 * D1 -> st N1 D1 <= st N2 D2.
Proof.
  intros H1 H2 Hle. unfold st.
  pose proof (div_le_cross _ _ _ _ H1 H2 Hle) as Hq.
  pose proof (Z.div_mod N1 D1 ltac:(lia)) as E1.
  pose proof (Z.div_mod N2 D2 ltac:(lia)) as E2.
  pose proof (Z.mod_pos_bound N1 D1 H1) as B1.
  pose proof (Z.mod_pos_bound N2 D2 H2) as B2.
  destruct (Z.eqb_spec (N1 mod D1) 0), (Z.eqb_spec (N2 mod D2) 0); try lia.
  (* N1/D1 is not an integer and N2/D2 is: the floors differ *)
  assert (N1 / D1 < N2 / D2); [| lia].
  destruct (Z_lt_ge_dec (N1 / D1) (N2 / D2)); [done |]. exfalso.
  assert (N1 / D1 = N2 / D2) as Heq by lia.
  assert (N2 = D2 * (N1 / D1)) as E2' by lia.
  assert (D1 * (N1 / D1) * D2 < N1 * D2) by nia.
  nia.
Qed.

Lemma st_st N D K : 0 <= N -> 0 < D -> 0 < K ->
  st (st N D) (2 * K) = st N (D * K).
Proof.
  intros HN HD HK. unfold st.
  set (f := N / D). set (r := N mod D).
  assert (N = D * f + r) as EN by (apply Z.div_mod; lia).
  assert (0 <= r < D) as Br by (apply Z.mod_pos_bound; lia).
  assert (0 <= f) as Hf by (apply Z.div_pos; lia).
  set (g := f / K). set (t := f mod K).
  assert (f = K * g + t) as Ef by (apply Z.div_mod; lia).
  assert (0 <= t < K) as Bt by (apply Z.mod_pos_bound; lia).
  assert (N / (D * K) = g) as Eq1.
  { symmetry. apply (Z.div_unique N (D * K) g (D * t + r)); [nia | nia]. }
  assert (N mod (D * K) = D * t + r) as Em1.
  { symmetry. apply (Z.mod_unique N (D * K) g (D * t + r)); [nia | nia]. }
  rewrite Eq1, Em1.
  set (b := if r =? 0 then 0 else 1).
  assert (0 <= b <= 1 /\ (b = 0 <-> r = 0)) as [Bb Hb].
  { unfold b. destruct (Z.eqb_spec r 0); lia. }
  assert ((2 * f + b) / (2 * K) = g) as Eq2.
  { symmetry. apply (Z.div_unique _ (2 * K) g (2 * t + b)); [nia | nia]. }
  assert ((2 * f + b) mod (2 * K) = 2 * t + b) as Em2.
  { symmetry. apply (Z.mod_unique _ (2 * K) g (2 * t + b)); [nia | nia]. }
  rewrite Eq2, Em2.
  destruct (Z.eqb_spec (2 * t + b) 0), (Z.eqb_spec (D * t + r) 0); try lia; nia.
Qed.

Lemma st_id T : st T 2 = T.
Proof.
  unfold st. pose proof (Z.div_mod T 2 ltac:(lia)).
  pose proof (Z.mod_pos_bound T 2 ltac:(lia)).
  destruct (Z.eqb_spec (T mod 2) 0); lia.
Qed.

Lemma st_int M D : 0 < D -> st (M * D) D = 2 * M.
Proof.
  intros. unfold st. rewrite Z.div_mul, Z.mod_mul, Z.eqb_refl by lia. lia.
Qed.

(** ** Nearest integer, ties to even *)

Lemma rne4_exact m : rne4 (4 * m) = m.
Proof.
  unfold rne4. rewrite (Z.mul_comm 4 m), Z.div_mul, Z.mod_mul by lia. reflexivity.
Qed.

Lemma rne4_bounds T : T / 4 <= rne4 T <= T / 4 + 1.
Proof.
  unfold rne4. destruct (T mod 4 <? 2), (T mod 4 =? 2), (Z.even (T / 4)); lia.
Qed.

Lemma rne4_mono T1 T2 : T1 <= T2 -> rne4 T1 <= rne4 T2.
Proof.
  intros Hle. unfold rne4.
  pose proof (Z.div_mod T1 4 ltac:(lia)) as E1.
  pose proof (Z.div_mod T2 4 ltac:(lia)) as E2.
  pose proof (Z.mod_pos_bound T1 4 ltac:(lia)) as B1.
  pose proof (Z.mod_pos_bound T2 4 ltac:(lia)) as B2.
  destruct (Z.ltb_spec (T1 mod 4) 2), (Z.ltb_spec (T2 mod 4) 2),
    (Z.eqb_spec (T1 mod 4) 2), (Z.eqb_spec (T2 mod 4) 2),
    (Z.even (T1 / 4)) eqn:Ev1, (Z.even (T2 / 4)) eqn:Ev2; try lia.
  all: destruct (Z.eq_dec (T1 / 4) (T2 / 4)) as [Heq | Hne]; [| lia];
    rewrite Heq in Ev1; congruence.
Qed.

(** ** Shifting with round and sticky bits *)

Lemma st_4 m c : 0 <= c < 4 -> st (4 * m + c) 4 = 2 * m + (if c =? 0 then 0 else 1).
Proof.
  intros Hc. unfold st.
  assert ((4 * m + c) / 4 = m) as ->.
  { symmetry. apply (Z.div_unique _ 4 m c); lia. }
  assert ((4 * m + c) mod 4 = c) as ->.
  { symmetry. apply (Z.mod_unique _ 4 m c); lia. }
  reflexivity.
Qed.

Lemma shr_1_code r :
  0 <= shr_m r -> code (shr_1 r) = st (code r) 4 /\ 0 <= shr_m (shr_1 r).
Proof.
  destruct r as [m rb sb]. unfold code. cbn [shr_m shr_r shr_s]. intros Hm.
  replace (4 * m + (if rb then 2 else 0) + (if sb then 1 else 0))
    with (4 * m + ((if rb then 2 else 0) + (if sb then 1 else 0))) by lia.
  rewrite st_4 by (destruct rb, sb; lia).
  destruct m as [| [p | p |] | p]; [| | | | lia];
    destruct rb, sb; cbn [shr_1 shr_m shr_r shr_s orb]; split; try lia;
    change (2 + 1 =? 0) with false; change (2 + 0 =? 0) with false;
    change (0 + 1 =? 0) with false; change (0 + 0 =? 0) with true; lia.
Qed.

Lemma code_nonneg r : 0 <= shr_m r -> 0 <= code r.
Proof. unfold code. destruct (shr_r r), (shr_s r); lia. Qed.

Lemma pow2_xO p : 2 ^ Zpos p~0 = 2 ^ Zpos p * 2 ^ Zpos p.
Proof. rewrite (Pos2Z.inj_xO p), <- Z.pow_add_r by lia. f_equal. lia. Qed.

Lemma pow2_xI p : 2 ^ Zpos p~1 = 2 * (2 ^ Zpos p * 2 ^ Zpos p).
Proof.
  rewrite (Pos2Z.inj_xI p), Z.pow_add_r by lia.
  replace (2 * Zpos p) with (Zpos p + Zpos p) by lia.
  rewrite Z.pow_add_r by lia. change (2 ^ 1) with 2. lia.
Qed.

Lemma iter_pos_shr_1 p : forall r, 0 <= shr_m r ->
  code (SpecFloat.iter_pos shr_1 p r) = st (code r) (2 * 2 ^ Zpos p)
  /\ 0 <= shr_m (SpecFloat.iter_pos shr_1 p r).
Proof.
  induction p as [p IH | p IH |]; intros r Hr; cbn [SpecFloat.iter_pos].
  - destruct (shr_1_code r Hr) as [E1 H1].
    destruct (IH _ H1) as [E2 H2]. destruct (IH _ H2) as [E3 H3].
    split; [| done]. rewrite E3, E2, E1.
    assert (0 < 2 ^ Zpos p) by (apply Z.pow_pos_nonneg; lia).
    pose proof (code_nonneg r Hr).
    rewrite (st_st (code r) 4) by lia.
    rewrite st_st by lia. f_equal. rewrite pow2_xI. ring.
  - destruct (IH _ Hr) as [E2 H2]. destruct (IH _ H2) as [E3 H3].
    split; [| done]. rewrite E3, E2.
    assert (0 < 2 ^ Zpos p) by (apply Z.pow_pos_nonneg; lia).
    pose proof (code_nonneg r Hr).
    rewrite st_st by lia. f_equal. rewrite pow2_xO. ring.
  - apply shr_1_code; done.
Qed.

Lemma shr_spec r e n : 0 <= shr_m r ->
  (shr r e n).2 = e + Z.max n 0
  /\ code (shr r e n).1 = st (code r) (2 * 2 ^ Z.max n 0)
  /\ 0 <= shr_m (shr r e n).1.
Proof.
  intros Hr. destruct n as [| p | p]; cbn [shr fst snd].
  - rewrite Z.max_id, Z.add_0_r. change (2 * 2 ^ 0) with 2.
    by rewrite st_id.
  - rewrite Z.max_l by lia.
    destruct (iter_pos_shr_1 p r Hr) as [E H]. done.
  - rewrite Z.max_r by lia. rewrite Z.add_0_r. change (2 * 2 ^ 0) with 2.
    by rewrite st_id.
Qed.

Lemma code_of_loc m l :
  code (shr_record_of_loc m l) = 4 * m + loc_code l
  /\ shr_m (shr_record_of_loc m l) = m.
Proof.
  destruct l as [| []]; unfold code;
    cbn [shr_record_of_loc shr_m shr_r shr_s loc_code]; lia.
Qed.

Lemma round_of_code r : 0 <= shr_m r ->
  round_nearest_even (shr_m r) (loc_of_shr_record r) = rne4 (code r).
Proof.
  destruct r as [m rb sb]. cbn [shr_m]. intros Hm. unfold rne4, code.
  cbn [shr_m shr_r shr_s].
  set (c := (if rb then 2 else 0) + (if sb then 1 else 0)).
  replace (4 * m + (if rb then 2 else 0) + (if sb then 1 else 0))
    with (4 * m + c) by (unfold c; lia).
  assert (0 <= c < 4) as Hc by (unfold c; destruct rb, sb; lia).
  assert ((4 * m + c) / 4 = m) as ->.
  { symmetry. apply (Z.div_unique _ 4 m c); lia. }
  assert ((4 * m + c) mod 4 = c) as ->.
  { symmetry. apply (Z.mod_unique _ 4 m c); lia. }
  unfold c. destruct rb, sb; reflexivity.
Qed.

(** ** Digits *)

Lemma digits2_pos_spec p :
  2 ^ (Zpos (digits2_pos p) - 1) <= Zpos p < 2 ^ Zpos (digits2_pos p).
Proof.
  induction p as [p IH | p IH |]; cbn [digits2_pos].
  - rewrite Pos2Z.inj_succ, (Pos2Z.inj_xI p).
    replace (Z.succ (Zpos (digits2_pos p)) - 1)
      with (Z.succ (Zpos (digits2_pos p) - 1)) by lia.
    rewrite !Z.pow_succ_r by lia. pow_atoms. lia.
  - rewrite Pos2Z.inj_succ, (Pos2Z.inj_xO p).
    replace (Z.succ (Zpos (digits2_pos p)) - 1)
      with (Z.succ (Zpos (digits2_pos p) - 1)) by lia.
    rewrite !Z.pow_succ_r by lia. pow_atoms. lia.
  - cbn. lia.
Qed.

Lemma Zdigits2_spec m : 0 < m ->
  0 < Zdigits2 m /\ 2 ^ (Zdigits2 m - 1) <= m < 2 ^ Zdigits2 m.
Proof.
  destruct m as [| p | p]; [lia | | lia]. intros _. cbn [Zdigits2].
  split; [lia | apply digits2_pos_spec].
Qed.

Lemma pow2_lt_inv a b : 0 <= b -> 2 ^ a < 2 ^ b -> a < b.
Proof.
  intros Hb Hlt. destruct (Z_lt_ge_dec a b); [done |]. exfalso.
  assert (2 ^ b <= 2 ^ a) by (apply Z.pow_le_mono_r; lia). lia.
Qed.

Lemma Zdigits2_unique m d : 0 < d -> 2 ^ (d - 1) <= m < 2 ^ d -> Zdigits2 m = d.
Proof.
  intros Hd [Hlo Hhi].
  assert (0 < m) as Hm.
  { assert (0 < 2 ^ (d - 1)) by (apply Z.pow_pos_nonneg; lia). lia. }
  destruct (Zdigits2_spec m Hm) as (Hpos & Hlo' & Hhi').
  assert (d - 1 < Zdigits2 m) by (apply pow2_lt_inv; lia).
  assert (Zdigits2 m - 1 < d) by (apply pow2_lt_inv; lia).
  lia.
Qed.

Lemma Zdigits2_nonneg m : 0 <= m -> 0 <= Zdigits2 m.
Proof. destruct m; cbn; lia. Qed.

Lemma Zdigits2_upper m : 0 <= m -> m < 2 ^ Zdigits2 m.
Proof.
  intros Hm. destruct (Z.eq_dec m 0) as [-> | Hne]; [cbn; lia |].
  apply Zdigits2_spec. lia.
Qed.

Lemma Zdigits2_mono a b : 0 <= a <= b -> Zdigits2 a <= Zdigits2 b.
Proof.
  intros [Ha Hab]. destruct (Z.eq_dec a 0) as [-> | Hne].
  - apply Zdigits2_nonneg. lia.
  - destruct (Zdigits2_spec a ltac:(lia)) as (Hpa & Hla & Hha).
    pose proof (Zdigits2_upper b ltac:(lia)) as Hb.
    assert (Zdigits2 a - 1 < Zdigits2 b); [| lia].
    apply pow2_lt_inv; [| lia]. apply Zdigits2_nonneg. lia.
Qed.

(** Digits of a quotient by a power of two. *)
Lemma Zdigits2_div_pow2 m k : 0 <= m -> 0 <= k ->
  Zdigits2 (m / 2 ^ k) = Z.max (Zdigits2 m - k) 0.
Proof.
  intros Hm Hk.
  assert (0 < 2 ^ k) as Hp by (apply Z.pow_pos_nonneg; lia).
  destruct (Z.eq_dec m 0) as [-> | Hne].
  { rewrite Z.div_0_l by lia. cbn. lia. }
  destruct (Zdigits2_spec m ltac:(lia)) as (Hd & Hlo & Hhi).
  destruct (Z_le_gt_dec (Zdigits2 m) k) as [Hle | Hgt].
  - rewrite Z.max_r by lia.
    assert (m < 2 ^ k).
    { assert (2 ^ Zdigits2 m <= 2 ^ k) by (apply Z.pow_le_mono_r; lia). lia. }
    rewrite Z.div_small by lia. reflexivity.
  - rewrite Z.max_l by lia. apply Zdigits2_unique; [lia |].
    assert (2 ^ (Zdigits2 m - 1) = 2 ^ (Zdigits2 m - k - 1) * 2 ^ k) as E1.
    { rewrite <- Z.pow_add_r by lia. f_equal. lia. }
    assert (2 ^ Zdigits2 m = 2 ^ (Zdigits2 m - k) * 2 ^ k) as E2.
    { rewrite <- Z.pow_add_r by lia. f_equal. lia. }
    split.
    + apply Z.div_le_lower_bound; [done |]. lia.
    + apply Z.div_lt_upper_bound; [done |]. lia.
Qed.

Lemma Zdigits2_mul_pow2 m k : 0 < m -> 0 <= k ->
  Zdigits2 (m * 2 ^ k) = Zdigits2 m + k.
Proof.
  intros Hm Hk. destruct (Zdigits2_spec m Hm) as (Hd & Hlo & Hhi).
  assert (0 < 2 ^ k) as Hp by (apply Z.pow_pos_nonneg; lia).
  apply Zdigits2_unique; [lia |].
  replace (Zdigits2 m + k - 1) with (Zdigits2 m - 1 + k) by lia.
  rewrite !Z.pow_add_r by lia. nia.
Qed.

Lemma st_div4 N D : 0 <= N -> 0 < D -> st N D / 4 = N / (2 * D).
Proof.
  intros HN HD. unfold st.
  rewrite (Z.mul_comm 2 D), <- Z.div_div by lia.
  set (f := N / D). assert (0 <= f) by (apply Z.div_pos; lia).
  pose proof (Z.div_mod f 2 ltac:(lia)).
  pose proof (Z.mod_pos_bound f 2 ltac:(lia)).
  symmetry.
  apply (Z.div_unique _ 4 (f / 2)
           (2 * (f mod 2) + (if N mod D =? 0 then 0 else 1)));
    destruct (N mod D =? 0); lia.
Qed.

(** ** Rounding a non-negative rational to binary64 *)
Section Rounding.

Let HU : 2200 <= U.
Proof. unfold U. lia. Qed.

#[local] Opaque U.

Lemma fexp_fexp64 e : fexp 53 1024 e = fexp64 e.
Proof. reflexivity. Qed.

Lemma fexp64_mono a b : a <= b -> fexp64 a <= fexp64 b.
Proof. unfold fexp64. lia. Qed.

Lemma rn_exp_ge N D : -1074 <= rn_exp N D.
Proof. unfold rn_exp, fexp64. lia. Qed.

Lemma ipart_nonneg N D : 0 <= N -> 0 < D -> 0 <= ipart N D.
Proof.
  intros. unfold ipart. apply Z.div_pos; [done |].
  assert (0 < 2 ^ (U - 1074)) by (apply Z.pow_pos_nonneg; lia). nia.
Qed.

(** The truncated mantissa at exponent [e]. *)
Lemma trunc_ipart N D e : 0 <= N -> 0 < D -> -1074 <= e ->
  N / (D * 2 ^ (e + U)) = ipart N D / 2 ^ (e + 1074).
Proof.
  intros HN HD He. unfold ipart.
  assert (0 < 2 ^ (U - 1074)) by (apply Z.pow_pos_nonneg; lia).
  assert (0 < 2 ^ (e + 1074)) by (apply Z.pow_pos_nonneg; lia).
  rewrite Z.div_div by nia. f_equal.
  replace (e + U) with ((U - 1074) + (e + 1074)) by lia.
  rewrite Z.pow_add_r by lia. ring.
Qed.

Lemma trunc_digits N D : 0 <= N -> 0 < D ->
  let m := N / (D * 2 ^ (rn_exp N D + U)) in
  0 <= m < 2 ^ 53 /\ (-1074 < rn_exp N D -> 2 ^ 52 <= m).
Proof.
  intros HN HD m. pose proof (rn_exp_ge N D) as Hge.
  pose proof (ipart_nonneg N D HN HD) as Hq.
  unfold m. rewrite trunc_ipart by done.
  assert (0 < 2 ^ (rn_exp N D + 1074)) by (apply Z.pow_pos_nonneg; lia).
  pose proof (Zdigits2_div_pow2 (ipart N D) (rn_exp N D + 1074) Hq
                ltac:(lia)) as Hdig.
  set (m' := ipart N D / 2 ^ (rn_exp N D + 1074)) in *.
  assert (0 <= m') as Hm' by (apply Z.div_pos; lia).
  pose proof (Zdigits2_upper m' Hm') as Hup.
  assert (Zdigits2 m' <= 53) as Hle.
  { rewrite Hdig. unfold rn_exp, fexp64 in *. lia. }
  split.
  - split; [done |].
    assert (2 ^ Zdigits2 m' <= 2 ^ 53) by (apply Z.pow_le_mono_r; lia). lia.
  - intros Hnorm.
    assert (Zdigits2 m' = 53) as E53.
    { rewrite Hdig. unfold rn_exp, fexp64 in *. lia. }
    destruct (Z.eq_dec m' 0) as [E0 | Hne].
    { rewrite E0 in E53. cbn in E53. lia. }
    destruct (Zdigits2_spec m' ltac:(lia)) as (_ & Hlo & _).
    rewrite E53 in Hlo. exact Hlo.
Qed.

Lemma rn_mant_trunc N D : 0 <= N -> 0 < D ->
  st N (D * 2 ^ (rn_exp N D + U - 1)) / 4 = N / (D * 2 ^ (rn_exp N D + U)).
Proof.
  intros HN HD. pose proof (rn_exp_ge N D).
  assert (0 < 2 ^ (rn_exp N D + U - 1)) by (apply Z.pow_pos_nonneg; lia).
  rewrite st_div4 by nia. f_equal.
  assert (2 ^ (rn_exp N D + U) = 2 * 2 ^ (rn_exp N D + U - 1)) as ->.
  { rewrite <- Z.pow_succ_r by lia. f_equal. lia. }
  ring.
Qed.

Lemma rn_mant_bounds N D : 0 <= N -> 0 < D ->
  0 <= rn_mant N D <= 2 ^ 53
  /\ (-1074 < rn_exp N D -> 2 ^ 52 <= rn_mant N D).
Proof.
  intros HN HD. destruct (trunc_digits N D HN HD) as [[H0 H1] H2].
  unfold rn_mant.
  pose proof (rne4_bounds (st N (D * 2 ^ (rn_exp N D + U - 1)))) as Hb.
  rewrite rn_mant_trunc in Hb by done. lia.
Qed.

Lemma RN_scale N D k : 0 < D -> 0 < k -> RN (N * k) (D * k) = RN N D.
Proof.
  intros HD Hk.
  assert (ipart (N * k) (D * k) = ipart N D) as Ei.
  { unfold ipart.
    replace (D * k * 2 ^ (U - 1074)) with (D * 2 ^ (U - 1074) * k) by ring.
    apply Z.div_mul_cancel_r; [| lia].
    assert (0 < 2 ^ (U - 1074)) by (apply Z.pow_pos_nonneg; lia). nia. }
  assert (rn_exp (N * k) (D * k) = rn_exp N D) as Ee
    by (unfold rn_exp; by rewrite Ei).
  unfold RN, rn_mant. rewrite Ee. f_equal. f_equal.
  pose proof (rn_exp_ge N D).
  assert (0 < 2 ^ (rn_exp N D + U - 1)) by (apply Z.pow_pos_nonneg; lia).
  replace (D * k * 2 ^ (rn_exp N D + U - 1))
    with (D * 2 ^ (rn_exp N D + U - 1) * k) by ring.
  apply st_scale; nia.
Qed.

Lemma RN_0 D : 0 < D -> RN 0 D = 0.
Proof.
  intros HD. unfold RN, rn_mant, st.
  rewrite Z.div_0_l, Z.mod_0_l.
  - reflexivity.
  - assert (0 < 2 ^ (rn_exp 0 D + U - 1)); [| nia].
    apply Z.pow_pos_nonneg; [lia |]. pose proof (rn_exp_ge 0 D). lia.
  - assert (0 < 2 ^ (rn_exp 0 D + U - 1)); [| nia].
    apply Z.pow_pos_nonneg; [lia |]. pose proof (rn_exp_ge 0 D). lia.
Qed.

Lemma RN_nonneg N D : 0 <= N -> 0 < D -> 0 <= RN N D.
Proof.
  intros HN HD. unfold RN.
  destruct (rn_mant_bounds N D HN HD) as [[H0 _] _].
  pose proof (rn_exp_ge N D).
  assert (0 < 2 ^ (rn_exp N D + U)) by (apply Z.pow_pos_nonneg; lia). nia.
Qed.

Lemma RN_mono N1 D1 N2 D2 :
  0 <= N1 -> 0 < D1 -> 0 < D2 -> N1 * D2 <= N2 * D1 ->
  RN N1 D1 <= RN N2 D2.
Proof.
  intros HN1 HD1 HD2 Hle.
  assert (0 <= N2) as HN2 by nia.
  assert (0 < 2 ^ (U - 1074)) as HpU by (apply Z.pow_pos_nonneg; lia).
  assert (ipart N1 D1 <= ipart N2 D2) as Hi.
  { unfold ipart. apply div_le_cross; nia. }
  pose proof (ipart_nonneg N1 D1 HN1 HD1) as Hi1.
  assert (rn_exp N1 D1 <= rn_exp N2 D2) as He.
  { unfold rn_exp. apply fexp64_mono.
    pose proof (Zdigits2_mono (ipart N1 D1) (ipart N2 D2) ltac:(lia)). lia. }
  pose proof (rn_exp_ge N1 D1) as Hg1.
  destruct (Z.eq_dec (rn_exp N1 D1) (rn_exp N2 D2)) as [Heq | Hne].
  - unfold RN, rn_mant. rewrite <- Heq.
    assert (0 < 2 ^ (rn_exp N1 D1 + U - 1)) by (apply Z.pow_pos_nonneg; lia).
    assert (0 < 2 ^ (rn_exp N1 D1 + U)) by (apply Z.pow_pos_nonneg; lia).
    apply Z.mul_le_mono_nonneg_r; [lia |].
    apply rne4_mono, st_mono; nia.
  - destruct (rn_mant_bounds N1 D1 HN1 HD1) as [[_ Hhi] _].
    destruct (rn_mant_bounds N2 D2 HN2 HD2) as [_ Hlo].
    specialize (Hlo ltac:(lia)). unfold RN.
    assert (0 < 2 ^ (rn_exp N1 D1 + U)) by (apply Z.pow_pos_nonneg; lia).
    assert (2 * 2 ^ (rn_exp N1 D1 + U) <= 2 ^ (rn_exp N2 D2 + U)).
    { rewrite <- Z.pow_succ_r by lia. apply Z.pow_le_mono_r; lia. }
    change (2 ^ 53) with (2 * 2 ^ 52) in Hhi.
    assert (0 < 2 ^ 52) by reflexivity.
    nia.
Qed.

Lemma RN_exact m e : canonical m e -> RN (m * 2 ^ (e + U)) 1 = m * 2 ^ (e + U).
Proof.
  intros [Hm He].
  assert (-1074 <= e) as Hge by (rewrite He; unfold fexp64; lia).
  assert (ipart (m * 2 ^ (e + U)) 1 = m * 2 ^ (e + 1074)) as Ei.
  { unfold ipart. rewrite Z.mul_1_l.
    replace (e + U) with ((e + 1074) + (U - 1074)) by lia.
    rewrite Z.pow_add_r, Z.mul_assoc by lia. apply Z.div_mul.
    assert (0 < 2 ^ (U - 1074)) by (apply Z.pow_pos_nonneg; lia). lia. }
  assert (rn_exp (m * 2 ^ (e + U)) 1 = e) as Ee.
  { unfold rn_exp. rewrite Ei, Zdigits2_mul_pow2 by lia.
    rewrite He at 2. f_equal. lia. }
  unfold RN, rn_mant. rewrite Ee, Z.mul_1_l.
  replace (e + U) with (Z.succ (e + U - 1)) at 1 by lia.
  rewrite Z.pow_succ_r by lia.
  replace (m * (2 * 2 ^ (e + U - 1))) with (2 * m * 2 ^ (e + U - 1)) by ring.
  rewrite st_int by (apply Z.pow_pos_nonneg; lia).
  replace (2 * (2 * m)) with (4 * m) by ring. by rewrite rne4_exact.
Qed.

Lemma shr_m_code r : shr_m r = code r / 4.
Proof.
  destruct r as [m rb sb]. unfold code. cbn [shr_m shr_r shr_s].
  apply (Z.div_unique _ 4 m ((if rb then 2 else 0) + (if sb then 1 else 0)));
    destruct rb, sb; lia.
Qed.

Lemma shr_fexp_spec m e l : 0 <= m ->
  (shr_fexp 53 1024 m e l).2 = e + Z.max (fexp64 (Zdigits2 m + e) - e) 0
  /\ code (shr_fexp 53 1024 m e l).1
     = st (4 * m + loc_code l)
          (2 * 2 ^ Z.max (fexp64 (Zdigits2 m + e) - e) 0)
  /\ 0 <= shr_m (shr_fexp 53 1024 m e l).1.
Proof.
  intros Hm. unfold shr_fexp. rewrite fexp_fexp64.
  destruct (code_of_loc m l) as [Ec Em].
  destruct (shr_spec (shr_record_of_loc m l) e
              (fexp64 (Zdigits2 m + e) - e) ltac:(lia)) as (H1 & H2 & H3).
  rewrite Ec in H2. done.
Qed.

(** The exponent the rounding chooses, from a representation of the value
    with enough digits. *)
Lemma rep_exp N D m e :
  0 <= N -> 0 < D -> 1 - U <= e ->
  m = N / (D * 2 ^ (e + U)) ->
  e <= fexp64 (Zdigits2 m + e) ->
  fexp64 (Zdigits2 m + e) = rn_exp N D.
Proof.
  intros HN HD He Hm Hprec. unfold rn_exp.
  pose proof (ipart_nonneg N D HN HD) as Hq.
  destruct (Z_le_gt_dec (-1074) e) as [Hge | Hlt].
  - rewrite trunc_ipart in Hm by done.
    pose proof (Zdigits2_div_pow2 (ipart N D) (e + 1074) Hq ltac:(lia)) as Hd.
    rewrite <- Hm in Hd. rewrite Hd in *. unfold fexp64 in *. lia.
  - assert (ipart N D = m / 2 ^ (-1074 - e)) as Ei.
    { unfold ipart. rewrite Hm.
      assert (0 < 2 ^ (e + U)) by (apply Z.pow_pos_nonneg; lia).
      assert (0 < 2 ^ (-1074 - e)) by (apply Z.pow_pos_nonneg; lia).
      rewrite Z.div_div by nia. f_equal.
      replace (U - 1074) with ((e + U) + (-1074 - e)) by lia.
      rewrite Z.pow_add_r by lia. ring. }
    assert (0 <= m) as Hm0.
    { rewrite Hm. apply Z.div_pos; [done |].
      assert (0 < 2 ^ (e + U)) by (apply Z.pow_pos_nonneg; lia). nia. }
    rewrite Ei, Zdigits2_div_pow2 by lia. unfold fexp64. lia.
Qed.

Lemma bounded_iff m e :
  bounded 53 1024 m e = true
  <-> e = fexp64 (Zdigits2 (Zpos m) + e) /\ e <= 971.
Proof.
  unfold bounded, canonical_mantissa. rewrite fexp_fexp64.
  rewrite andb_true_iff, Z.eqb_eq, Z.leb_le. cbn [Zdigits2].
  change (1024 - 53) with 971. intuition lia.
Qed.

Lemma pow2_53_digits : Zdigits2 (2 ^ 53) = 54.
Proof. reflexivity. Qed.

Theorem binary_round_aux_spec sx m e l N D :
  0 <= N -> 0 < D -> 0 <= m -> 1 - U <= e ->
  e <= fexp64 (Zdigits2 m + e) ->
  4 * m + loc_code l = st N (D * 2 ^ (e + U - 1)) ->
  RN N D < 2 ^ (1024 + U) ->
  finite_of_sign sx (binary_round_aux 53 1024 sx m e l)
  /\ mag (binary_round_aux 53 1024 sx m e l) = RN N D.
Proof.
  intros HN HD Hm He Hprec Hrep Hov.
  assert (0 < 2 ^ (e + U - 1)) as Hp1 by (apply Z.pow_pos_nonneg; lia).
  assert (m = N / (D * 2 ^ (e + U))) as Em.
  { assert (m = (4 * m + loc_code l) / 4) as ->.
    { apply (Z.div_unique _ 4 m (loc_code l)); [| lia].
      destruct l as [| []]; cbn; lia. }
    rewrite Hrep, st_div4 by nia. f_equal.
    assert (2 ^ (e + U) = 2 * 2 ^ (e + U - 1)) as ->.
    { rewrite <- Z.pow_succ_r by lia. f_equal. lia. }
    ring. }
  pose proof (rep_exp N D m e HN HD He Em Hprec) as Ee.
  pose proof (rn_exp_ge N D) as Hge.
  destruct (shr_fexp_spec m e l Hm) as (S1 & S2 & S3).
  rewrite Ee in S1, S2. rewrite Ee in Hprec.
  rewrite Z.max_l in S1, S2 by lia.
  replace (e + (rn_exp N D - e)) with (rn_exp N D) in S1 by lia.
  rewrite Hrep, st_st in S2 by (try apply Z.pow_pos_nonneg; nia).
  assert (D * 2 ^ (e + U - 1) * 2 ^ (rn_exp N D - e)
          = D * 2 ^ (rn_exp N D + U - 1)) as Epow.
  { rewrite <- Z.mul_assoc, <- Z.pow_add_r by lia. do 2 f_equal. lia. }
  rewrite Epow in S2. clear Epow.
  unfold binary_round_aux.
  destruct (shr_fexp 53 1024 m e l) as [mrs' e'] eqn:E1.
  cbn [fst snd] in S1, S2, S3. subst e'.
  rewrite round_of_code, S2 by done.
  fold (rn_mant N D).
  destruct (rn_mant_bounds N D HN HD) as [[Hlo Hhi] Hnorm].
  assert (RN N D = rn_mant N D * 2 ^ (rn_exp N D + U)) as ERN by reflexivity.
  assert (0 < 2 ^ (rn_exp N D + U)) as HpE by (apply Z.pow_pos_nonneg; lia).
  set (m2 := rn_mant N D) in *. set (e1 := rn_exp N D) in *.
  destruct (shr_fexp_spec m2 e1 loc_Exact Hlo) as (T1 & T2 & T3).
  destruct (shr_fexp 53 1024 m2 e1 loc_Exact) as [mrs'' e''] eqn:E2.
  cbn [fst snd] in T1, T2, T3. cbn [loc_code] in T2. rewrite Z.add_0_r in T2.
  rewrite shr_m_code.
  destruct (Z.eq_dec m2 (2 ^ 53)) as [E53 | N53].
  - (* the rounded mantissa has 54 digits: one more shift, exactly *)
    rewrite E53, pow2_53_digits in T1, T2.
    assert (Z.max (fexp64 (54 + e1) - e1) 0 = 1) as En
      by (unfold fexp64; lia).
    rewrite En in T1, T2. change (2 * 2 ^ 1) with 4 in T2.
    change (4 * 2 ^ 53) with (2 ^ 53 * 4) in T2. rewrite st_int in T2 by lia.
    rewrite T2. change (2 * 2 ^ 53 / 4) with (Zpos (2 ^ 52)).
    assert (e1 + 53 < 1024) as Hlt.
    { rewrite ERN, E53, <- Z.pow_add_r in Hov by lia.
      apply pow2_lt_inv in Hov; lia. }
    subst e''. rewrite (proj2 (Z.leb_le _ _)) by (cbn; lia).
    split.
    + right. eexists _, _. split; [reflexivity |].
      apply bounded_iff. cbn [Zdigits2].
      change (Zpos (digits2_pos (2 ^ 52))) with 53. unfold fexp64. lia.
    + cbn [mag]. rewrite ERN, E53.
      replace (e1 + 1 + U) with (Z.succ (e1 + U)) by lia.
      rewrite Z.pow_succ_r by lia.
      change (Zpos (2 ^ 52)) with (2 ^ 52). change (2 ^ 53) with (2 ^ 52 * 2).
      ring.
  - (* no further shift *)
    assert (Zdigits2 m2 <= 53) as Hd.
    { destruct (Z.eq_dec m2 0) as [-> | Hne]; [cbn; lia |].
      destruct (Zdigits2_spec m2 ltac:(lia)) as (_ & Hl & _).
      assert (Zdigits2 m2 - 1 < 53); [| lia].
      apply pow2_lt_inv; lia. }
    assert (Z.max (fexp64 (Zdigits2 m2 + e1) - e1) 0 = 0) as En
      by (unfold fexp64; lia).
    rewrite En in T1, T2. change (2 * 2 ^ 0) with 2 in T2.
    rewrite st_id in T2. rewrite T2, Z.add_0_r in *.
    rewrite (Z.mul_comm 4 m2), Z.div_mul by lia. subst e''.
    destruct m2 as [| p | p] eqn:Ep; [| | lia].
    + split; [by left |]. cbn [mag]. lia.
    + assert (e1 <= 971) as Hle.
      { destruct (Z_le_gt_dec e1 (-1074)); [lia |].
        specialize (Hnorm ltac:(lia)).
        assert (2 ^ 52 * 2 ^ (e1 + U) < 2 ^ (1024 + U)) as Hlt by nia.
        rewrite <- Z.pow_add_r in Hlt by lia.
        apply pow2_lt_inv in Hlt; lia. }
      rewrite (proj2 (Z.leb_le _ _)) by (cbn; lia).
      split.
      * right. eexists _, _. split; [reflexivity |].
        apply bounded_iff. split; [| done].
        destruct (Z_le_gt_dec e1 (-1074)); [unfold fexp64; lia |].
        specialize (Hnorm ltac:(lia)).
        assert (Zdigits2 (Zpos p) = 53) as ->; [| unfold fexp64; lia].
        apply Zdigits2_unique; lia.
      * cbn [mag]. lia.
Qed.

(** ** Values of floats *)

Lemma nonneg_valid x : nonneg x -> valid x.
Proof. destruct x; cbn; tauto. Qed.

Lemma bounded_exp m e : bounded 53 1024 m e = true -> -1074 <= e <= 971.
Proof. rewrite bounded_iff. unfold fexp64. lia. Qed.

Lemma bounded_canonical m e :
  bounded 53 1024 m e = true -> canonical (Zpos m) e.
Proof. rewrite bounded_iff. intros [? _]. split; [lia | done]. Qed.

Lemma pow_pos e : -1074 <= e -> 0 < 2 ^ (e + U).
Proof. intros. apply Z.pow_pos_nonneg; lia. Qed.

Lemma nonneg_val x : nonneg x -> 0 <= val x.
Proof.
  destruct x as [| | | s m e]; cbn; try lia. intros [-> Hb].
  apply bounded_exp in Hb. pose proof (pow_pos e ltac:(lia)). cbn. nia.
Qed.

Lemma finite_of_sign_nonneg x : finite_of_sign false x -> nonneg x.
Proof. intros [-> | (m & e & -> & Hb)]; cbn; auto. Qed.

Lemma finite_of_sign_val x : finite_of_sign false x -> val x = mag x.
Proof. intros [-> | (m & e & -> & Hb)]; reflexivity. Qed.

Lemma valid_val_sign s m e :
  bounded 53 1024 m e = true ->
  (0 <= val (S754_finite s m e) -> s = false)
  /\ (val (S754_finite s m e) <= 0 -> s = true).
Proof.
  intros Hb%bounded_exp. pose proof (pow_pos e ltac:(lia)).
  destruct s; cbn; split; intros; try done; nia.
Qed.

Lemma RN_val x : nonneg x -> RN (val x) 1 = val x.
Proof.
  destruct x as [s | s | | s m e]; cbn [nonneg val]; intros Hx.
  - by apply RN_0.
  - done.
  - done.
  - destruct Hx as [-> Hb]. cbn [cond_Zopp].
    by apply RN_exact, bounded_canonical.
Qed.

(** ** Alignment and rounding of an integer mantissa *)

Lemma iter_xO m d : Zpos (Pos.iter xO m d) = Zpos m * 2 ^ Zpos d.
Proof.
  induction d as [| d IH] using Pos.peano_ind.
  - cbn. lia.
  - rewrite Pos.iter_succ, Pos2Z.inj_xO, IH, Pos2Z.inj_succ.
    rewrite Z.pow_succ_r by lia. ring.
Qed.

Lemma shl_align_spec m e e' :
  (shl_align m e e').2 = Z.min e e'
  /\ Zpos (shl_align m e e').1 = Zpos m * 2 ^ (e - Z.min e e').
Proof.
  unfold shl_align. destruct (e' - e) as [| d | d] eqn:Ed; cbn [fst snd].
  - rewrite Z.min_l by lia. rewrite Z.sub_diag. lia.
  - rewrite Z.min_l by lia. rewrite Z.sub_diag. lia.
  - rewrite Z.min_r by lia. split; [done |].
    rewrite iter_xO. do 2 f_equal. lia.
Qed.

Lemma binary_round_spec sx m e :
  1 - U <= e ->
  RN (Zpos m * 2 ^ (e + U)) 1 < 2 ^ (1024 + U) ->
  finite_of_sign sx (binary_round 53 1024 sx m e)
  /\ mag (binary_round 53 1024 sx m e) = RN (Zpos m * 2 ^ (e + U)) 1.
Proof.
  intros He Hov. unfold binary_round. rewrite fexp_fexp64.
  set (e' := fexp64 (Zpos (digits2_pos m) + e)).
  destruct (shl_align_spec m e e') as [Ez Em].
  destruct (shl_align m e e') as [mz ez]. cbn [fst snd] in Ez, Em.
  assert (-1074 <= e') by (unfold e', fexp64; lia).
  assert (0 < 2 ^ (e - ez)) by (apply Z.pow_pos_nonneg; lia).
  assert (Zdigits2 (Zpos mz) + ez = Zpos (digits2_pos m) + e) as Hd.
  { rewrite Em, Zdigits2_mul_pow2 by lia. cbn [Zdigits2]. lia. }
  apply binary_round_aux_spec; try lia.
  - rewrite Hd. fold e'. lia.
  - cbn [loc_code]. rewrite Z.mul_1_l, Em, Z.add_0_r, <- Ez.
    assert (Zpos m * 2 ^ (e + U)
            = 2 * (Zpos m * 2 ^ (e - ez)) * 2 ^ (ez + U - 1)) as ->.
    { replace (e + U) with (Z.succ ((e - ez) + (ez + U - 1))) by lia.
      rewrite Z.pow_succ_r, Z.pow_add_r by lia. ring. }
    rewrite st_int by (apply Z.pow_pos_nonneg; lia). ring.
Qed.

(** Rounding of a positive integer mantissa at exponent [e], as
    [binary_normalize] does. *)
Lemma binary_normalize_spec z e :
  0 <= z -> 1 - U <= e ->
  RN (z * 2 ^ (e + U)) 1 < 2 ^ (1024 + U) ->
  nonneg (binary_normalize 53 1024 z e false)
  /\ val (binary_normalize 53 1024 z e false) = RN (z * 2 ^ (e + U)) 1.
Proof.
  intros Hz He Hov. destruct z as [| m | m]; [| | lia]; cbn [binary_normalize].
  - split; [done |]. cbn. by rewrite RN_0.
  - destruct (binary_round_spec false m e He Hov) as [Hf Hm].
    split; [by apply finite_of_sign_nonneg |].
    by rewrite finite_of_sign_val.
Qed.

(** ** The arithmetic operations *)

Lemma cond_Zopp_mul s a b : cond_Zopp s a * b = cond_Zopp s (a * b).
Proof. destruct s; cbn; lia. Qed.

Lemma aligned_val s m e ez : -1074 <= ez <= e ->
  cond_Zopp s (Zpos (shl_align m e ez).1) * 2 ^ (ez + U)
  = val (S754_finite s m e).
Proof.
  intros He. destruct (shl_align_spec m e ez) as [_ Em].
  rewrite Em, Z.min_r by lia. cbn [val]. rewrite cond_Zopp_mul. f_equal.
  rewrite <- Z.mul_assoc, <- Z.pow_add_r by lia. do 2 f_equal. lia.
Qed.

Theorem SFsub_spec x y :
  valid x -> valid y -> val y <= val x ->
  RN (val x - val y) 1 < 2 ^ (1024 + U) ->
  nonneg (SFsub 53 1024 x y)
  /\ val (SFsub 53 1024 x y) = RN (val x - val y) 1.
Proof.
  intros Hx Hy Hle Hov.
  destruct x as [sx | sx | | sx mx ex], y as [sy | sy | | sy my ey];
    try done; cbn [valid] in Hx, Hy.
  - cbn [val] in *. rewrite RN_0 by lia.
    by destruct sx, sy.
  - destruct (valid_val_sign sy my ey Hy) as [_ Hs].
    change (val (S754_zero sx)) with 0 in *.
    rewrite (Hs Hle) in *.
    cbn [SFsub negb]. split; [done |]. cbn [val cond_Zopp].
    replace (0 - - (Z.pos my * 2 ^ (ey + U))) with (Z.pos my * 2 ^ (ey + U))
      by lia.
    symmetry. by apply RN_exact, bounded_canonical.
  - destruct (valid_val_sign sx mx ex Hx) as [Hs _].
    change (val (S754_zero sy)) with 0 in *.
    rewrite (Hs Hle) in *.
    cbn [SFsub]. split; [done |]. rewrite Z.sub_0_r.
    symmetry. by apply (RN_val (S754_finite false mx ex)).
  - cbn [SFsub].
    pose proof (bounded_exp _ _ Hx). pose proof (bounded_exp _ _ Hy).
    set (ez := Z.min ex ey).
    set (z := cond_Zopp sx (Z.pos (shl_align mx ex ez).1)
              - cond_Zopp sy (Z.pos (shl_align my ey ez).1)).
    assert (z * 2 ^ (ez + U) = val (S754_finite sx mx ex)
                               - val (S754_finite sy my ey)) as Ez.
    { unfold z. rewrite Z.mul_sub_distr_r, !aligned_val by (unfold ez; lia).
      reflexivity. }
    assert (0 < 2 ^ (ez + U)) by (apply pow_pos; unfold ez; lia).
    rewrite <- Ez in *.
    apply binary_normalize_spec; [nia | unfold ez; lia | done].
Qed.

Theorem SFadd_spec x y :
  nonneg x -> nonneg y ->
  RN (val x + val y) 1 < 2 ^ (1024 + U) ->
  nonneg (SFadd 53 1024 x y)
  /\ val (SFadd 53 1024 x y) = RN (val x + val y) 1.
Proof.
  intros Hx Hy Hov.
  destruct x as [sx | sx | | sx mx ex], y as [sy | sy | | sy my ey];
    try done; cbn [nonneg] in Hx, Hy.
  - cbn [val] in *. rewrite RN_0 by lia. by destruct sx, sy.
  - destruct Hy as [-> Hy]. cbn [SFadd]. split; [done |].
    change (val (S754_zero sx)) with 0. rewrite Z.add_0_l.
    symmetry. by apply (RN_val (S754_finite false my ey)).
  - destruct Hx as [-> Hx]. cbn [SFadd]. split; [done |].
    change (val (S754_zero sy)) with 0. rewrite Z.add_0_r.
    symmetry. by apply (RN_val (S754_finite false mx ex)).
  - destruct Hx as [-> Hx], Hy as [-> Hy]. cbn [SFadd].
    pose proof (bounded_exp _ _ Hx). pose proof (bounded_exp _ _ Hy).
    set (ez := Z.min ex ey).
    set (z := cond_Zopp false (Z.pos (shl_align mx ex ez).1)
              + cond_Zopp false (Z.pos (shl_align my ey ez).1)).
    assert (z * 2 ^ (ez + U) = val (S754_finite false mx ex)
                               + val (S754_finite false my ey)) as Ez.
    { unfold z. rewrite Z.mul_add_distr_r, !aligned_val by (unfold ez; lia).
      reflexivity. }
    assert (0 < 2 ^ (ez + U)) by (apply pow_pos; unfold ez; lia).
    rewrite <- Ez in *.
    apply binary_normalize_spec; [| unfold ez; lia | done].
    unfold z. cbn [cond_Zopp]. lia.
Qed.

Lemma Zdigits2_mul_lower a b : 0 < a -> 0 < b ->
  Zdigits2 a + Zdigits2 b - 1 <= Zdigits2 (a * b).
Proof.
  intros Ha Hb.
  destruct (Zdigits2_spec a Ha) as (Hda & Hla & _).
  destruct (Zdigits2_spec b Hb) as (Hdb & Hlb & _).
  pose proof (Zdigits2_upper (a * b) ltac:(nia)) as Hu.
  assert (2 ^ (Zdigits2 a - 1 + (Zdigits2 b - 1)) <= a * b) as Hlo.
  { rewrite Z.pow_add_r by lia.
    assert (0 < 2 ^ (Zdigits2 a - 1)) by (apply Z.pow_pos_nonneg; lia).
    assert (0 < 2 ^ (Zdigits2 b - 1)) by (apply Z.pow_pos_nonneg; lia).
    nia. }
  assert (Zdigits2 a - 1 + (Zdigits2 b - 1) < Zdigits2 (a * b)); [| lia].
  apply pow2_lt_inv; [| lia]. apply Zdigits2_nonneg. nia.
Qed.

(** Multiplication by a positive normal number. *)
Theorem SFmul_spec x my ey :
  nonneg x -> bounded 53 1024 my ey = true ->
  Zdigits2 (Zpos my) = 53 ->
  RN (val x * val (S754_finite false my ey)) (2 ^ U) < 2 ^ (1024 + U) ->
  nonneg (SFmul 53 1024 x (S754_finite false my ey))
  /\ val (SFmul 53 1024 x (S754_finite false my ey))
     = RN (val x * val (S754_finite false my ey)) (2 ^ U).
Proof.
  intros Hx Hy Hnorm Hov.
  assert (0 < 2 ^ U) as HpU by (apply Z.pow_pos_nonneg; lia).
  destruct x as [sx | sx | | sx mx ex]; cbn [nonneg] in Hx; [| done | done |].
  - cbn [SFmul]. split; [done |].
    change (val (S754_zero sx)) with 0. rewrite Z.mul_0_l.
    change (val (S754_zero (xorb sx false))) with 0.
    symmetry. by apply RN_0.
  - destruct Hx as [-> Hx]. cbn [SFmul xorb].
    pose proof (bounded_exp _ _ Hx). pose proof (bounded_exp _ _ Hy).
    cbn [val cond_Zopp] in *.
    assert (0 < 2 ^ (ex + U)) by (apply pow_pos; lia).
    assert (0 < 2 ^ (ey + U)) by (apply pow_pos; lia).
    destruct (binary_round_aux_spec false (Zpos (mx * my)) (ex + ey)
                loc_Exact (Z.pos mx * 2 ^ (ex + U) * (Z.pos my * 2 ^ (ey + U)))
                (2 ^ U)) as [Hf Hm]; try lia.
    + pose proof (Zdigits2_mul_lower (Zpos mx) (Zpos my) ltac:(lia)
                    ltac:(lia)) as Hd.
      destruct (Zdigits2_spec (Zpos mx) ltac:(lia)) as (Hdx & _).
      rewrite Pos2Z.inj_mul. unfold fexp64. lia.
    + cbn [loc_code]. rewrite Z.add_0_r, <- Z.pow_add_r by lia.
      assert (Z.pos mx * 2 ^ (ex + U) * (Z.pos my * 2 ^ (ey + U))
              = 2 * Z.pos (mx * my) * 2 ^ (U + (ex + ey + U - 1))) as ->.
      { rewrite Pos2Z.inj_mul.
        replace (U + (ex + ey + U - 1)) with ((ex + U) + (ey + U) - 1) by lia.
        assert (2 ^ (ex + U) * 2 ^ (ey + U) = 2 * 2 ^ (ex + U + (ey + U) - 1))
          as E.
        { rewrite <- Z.pow_add_r, <- Z.pow_succ_r by lia. f_equal. lia. }
        transitivity (Z.pos mx * Z.pos my * (2 ^ (ex + U) * 2 ^ (ey + U)));
          [ring |]. rewrite E. ring. }
      rewrite st_int by (apply Z.pow_pos_nonneg; lia). ring.
    + split; [by apply finite_of_sign_nonneg |].
      by rewrite finite_of_sign_val.
Qed.

Lemma st_unique N D f r :
  0 < D -> N = D * f + r -> 0 <= r < D ->
  st N D = 2 * f + (if r =? 0 then 0 else 1).
Proof.
  intros HD EN Hr. unfold st.
  rewrite <- (Z.div_unique N D f r), <- (Z.mod_unique N D f r) by lia.
  reflexivity.
Qed.

(** The location of a remainder with respect to one half of the divisor. *)
Lemma new_location_code d q r :
  0 < d -> 0 <= r < d ->
  4 * q + loc_code (new_location d r) = st (2 * (d * q + r)) d.
Proof.
  intros Hd Hr.
  assert (loc_code (new_location d r)
          = if r =? 0 then 0
            else if 2 * r <? d then 1 else if 2 * r =? d then 2 else 3) as ->.
  { unfold new_location.
    destruct (Z.even d) eqn:Hev;
      unfold new_location_even, new_location_odd;
      destruct (Z.eqb_spec r 0) as [-> | Hne]; try done.
    - destruct (Z.compare_spec (2 * r) d), (Z.ltb_spec (2 * r) d),
        (Z.eqb_spec (2 * r) d); cbn [loc_code]; lia.
    - assert (2 * r <> d) as Hodd.
      { intros <-. rewrite Z.even_mul in Hev. discriminate. }
      destruct (Z.compare_spec (2 * r + 1) d), (Z.ltb_spec (2 * r) d),
        (Z.eqb_spec (2 * r) d); cbn [loc_code]; lia. }
  destruct (Z.eqb_spec r 0) as [-> | Hne].
  { rewrite (st_unique _ d (2 * q) 0) by lia. cbn. lia. }
  destruct (Z.ltb_spec (2 * r) d).
  { rewrite (st_unique _ d (2 * q) (2 * r)) by lia.
    destruct (Z.eqb_spec (2 * r) 0); lia. }
  destruct (Z.eqb_spec (2 * r) d).
  { rewrite (st_unique _ d (2 * q + 1) 0) by lia. cbn. lia. }
  rewrite (st_unique _ d (2 * q + 1) (2 * r - d)) by lia.
  destruct (Z.eqb_spec (2 * r - d) 0); lia.
Qed.

Lemma div_pow2_lower a b k :
  0 < b -> 0 <= k -> 2 ^ k * b <= a -> 2 ^ k <= a / b.
Proof. intros Hb Hk Hle. apply Z.div_le_lower_bound; lia. Qed.

(** Division of a non-negative number by a positive one. *)
Theorem SFdiv_spec x my ey :
  nonneg x -> bounded 53 1024 my ey = true ->
  RN (val x * 2 ^ U) (val (S754_finite false my ey)) < 2 ^ (1024 + U) ->
  nonneg (SFdiv 53 1024 x (S754_finite false my ey))
  /\ val (SFdiv 53 1024 x (S754_finite false my ey))
     = RN (val x * 2 ^ U) (val (S754_finite false my ey)).
Proof.
  intros Hx Hy Hov.
  assert (0 < 2 ^ U) as HpU by (apply Z.pow_pos_nonneg; lia).
  pose proof (bounded_exp _ _ Hy) as Bey.
  assert (0 < 2 ^ (ey + U)) as Hpy by (apply pow_pos; lia).
  destruct x as [sx | sx | | sx mx ex]; cbn [nonneg] in Hx; [| done | done |].
  - cbn [SFdiv]. split; [done |].
    change (val (S754_zero sx)) with 0. rewrite Z.mul_0_l.
    change (val (S754_zero (xorb sx false))) with 0.
    symmetry. apply RN_0. cbn [val cond_Zopp]. nia.
  - destruct Hx as [-> Hx]. cbn [SFdiv xorb].
    pose proof (bounded_exp _ _ Hx) as Bex.
    assert (0 < 2 ^ (ex + U)) as Hpx by (apply pow_pos; lia).
    cbn [val cond_Zopp] in *.
    unfold SFdiv_core_binary. rewrite fexp_fexp64. cbn [Zdigits2].
    set (d1 := Zpos (digits2_pos mx)). set (d2 := Zpos (digits2_pos my)).
    set (e' := Z.min (fexp64 (d1 + ex - (d2 + ey))) (ex - ey)).
    set (s := ex - ey - e').
    assert (0 <= s) as Hs by (unfold s, e'; lia).
    assert (-1074 <= fexp64 (d1 + ex - (d2 + ey))) as Hfe
      by (unfold fexp64; lia).
    assert (-2045 <= e' <= 2045) as Be' by (unfold e'; lia).
    set (m' := match s with
               | 0 => Z.pos mx
               | Z.pos _ => Z.shiftl (Z.pos mx) s
               | Z.neg _ => 0
               end).
    assert (m' = Zpos mx * 2 ^ s) as Em'.
    { unfold m'. destruct s as [| p | p] eqn:Es; [cbn; lia | | lia].
      by rewrite Z.shiftl_mul_pow2. }
    assert (0 < 2 ^ s) as Hps by (apply Z.pow_pos_nonneg; lia).
    assert (0 < m') as Hm' by nia.
    pose proof (Z.div_mod m' (Zpos my) ltac:(lia)) as Edm.
    pose proof (Z.mod_pos_bound m' (Zpos my) ltac:(lia)) as Brm.
    destruct (Z.div_eucl m' (Z.pos my)) as [q r] eqn:Ediv.
    assert (q = m' / Zpos my) as Eq by (unfold Z.div; by rewrite Ediv).
    assert (r = m' mod Zpos my) as Er by (unfold Z.modulo; by rewrite Ediv).
    rewrite <- Eq, <- Er in *. clear Eq Er Ediv.
    assert (0 <= q) as Hq by nia.
    destruct (binary_round_aux_spec false q e' (new_location (Zpos my) r)
                (Z.pos mx * 2 ^ (ex + U) * 2 ^ U) (Z.pos my * 2 ^ (ey + U)))
      as [Hf Hm]; try lia.
    + (* enough digits *)
      assert (d1 + s - d2 <= Zdigits2 q) as Hdq.
      { pose proof (Zdigits2_nonneg q Hq).
        destruct (Z_le_gt_dec (d1 + s - d2) 0); [lia |].
        destruct (Zdigits2_spec (Zpos mx) ltac:(lia)) as (_ & Hlx & _).
        destruct (Zdigits2_spec (Zpos my) ltac:(lia)) as (_ & _ & Huy).
        cbn [Zdigits2] in Hlx, Huy. fold d1 in Hlx. fold d2 in Huy.
        assert (2 ^ (d1 + s - d2 - 1) <= q) as Hlo.
        { rewrite Edm in Em'. 
          assert (2 ^ (d1 + s - d2 - 1) * 2 ^ d2 = 2 ^ (d1 - 1) * 2 ^ s) as E.
          { rewrite <- !Z.pow_add_r by lia. f_equal. lia. }
          assert (0 < 2 ^ (d1 + s - d2 - 1)) by (apply Z.pow_pos_nonneg; lia).
          destruct (Z_le_gt_dec (2 ^ (d1 + s - d2 - 1)) q); [done |].
          exfalso.
          assert (q + 1 <= 2 ^ (d1 + s - d2 - 1)) by lia.
          assert (Z.pos my * (q + 1) < 2 ^ (d1 - 1) * 2 ^ s) by nia.
          nia. }
        pose proof (Zdigits2_upper q Hq).
        assert (d1 + s - d2 - 1 < Zdigits2 q); [| lia].
        apply pow2_lt_inv; lia. }
      assert (fexp64 (d1 + ex - (d2 + ey)) <= fexp64 (Zdigits2 q + e')).
      { apply fexp64_mono. unfold s in Hdq. lia. }
      unfold e' at 1. lia.
    + (* the quotient and the location represent the value *)
      rewrite (Z.mul_comm (Zpos my) q) in Edm.
      rewrite (new_location_code (Zpos my) q r) by lia.
      rewrite (Z.mul_comm (Zpos my) q), <- Edm.
      assert (Z.pos mx * 2 ^ (ex + U) * 2 ^ U
              = 2 * m' * 2 ^ (ey + e' + 2 * U - 1)) as ->.
      { rewrite Em'.
        assert (2 ^ (ex + U) * 2 ^ U = 2 * 2 ^ s * 2 ^ (ey + e' + 2 * U - 1))
          as E.
        { rewrite <- Z.pow_succ_r, <- !Z.pow_add_r by lia.
          f_equal. unfold s. lia. }
        transitivity (Z.pos mx * (2 ^ (ex + U) * 2 ^ U)); [ring |].
        rewrite E. ring. }
      assert (Z.pos my * 2 ^ (ey + U) * 2 ^ (e' + U - 1)
              = Z.pos my * 2 ^ (ey + e' + 2 * U - 1)) as ->.
      { rewrite <- Z.mul_assoc, <- Z.pow_add_r by lia. do 2 f_equal. lia. }
      symmetry. apply st_scale; [lia |]. apply Z.pow_pos_nonneg; lia.
    + split; [by apply finite_of_sign_nonneg |].
      by rewrite finite_of_sign_val.
Qed.

(** ** Comparison *)

Lemma canonical_exp_lt m1 e1 m2 e2 :
  bounded 53 1024 m1 e1 = true -> bounded 53 1024 m2 e2 = true ->
  e1 < e2 -> Zpos m1 * 2 ^ (e1 + U) < Zpos m2 * 2 ^ (e2 + U).
Proof.
  intros [E1 L1]%bounded_iff [E2 L2]%bounded_iff Hlt.
  destruct (Zdigits2_spec (Zpos m1) ltac:(lia)) as (P1 & _ & U1).
  destruct (Zdigits2_spec (Zpos m2) ltac:(lia)) as (P2 & Lo2 & _).
  assert (Zdigits2 (Zpos m1) <= 53) as D1 by (unfold fexp64 in E1; lia).
  assert (Zdigits2 (Zpos m2) = 53) as D2 by (unfold fexp64 in E1, E2; lia).
  rewrite D2 in Lo2. change (2 ^ (53 - 1)) with (2 ^ 52) in Lo2.
  assert (Zpos m1 < 2 ^ 53).
  { assert (2 ^ Zdigits2 (Zpos m1) <= 2 ^ 53)
      by (apply Z.pow_le_mono_r; lia). lia. }
  assert (-1074 <= e1) by (unfold fexp64 in E1; lia).
  assert (0 < 2 ^ (e1 + U)) by (apply Z.pow_pos_nonneg; lia).
  assert (2 * 2 ^ (e1 + U) <= 2 ^ (e2 + U)).
  { rewrite <- Z.pow_succ_r by lia. apply Z.pow_le_mono_r; lia. }
  change (2 ^ 53) with (2 * 2 ^ 52) in *. assert (0 < 2 ^ 52) by reflexivity.
  nia.
Qed.

Lemma compare_mag m1 e1 m2 e2 :
  bounded 53 1024 m1 e1 = true -> bounded 53 1024 m2 e2 = true ->
  match e1 ?= e2 with
  | Lt => Lt
  | Gt => Gt
  | Eq => Pos.compare_cont Eq m1 m2
  end = (Zpos m1 * 2 ^ (e1 + U) ?= Zpos m2 * 2 ^ (e2 + U)).
Proof.
  intros H1 H2. symmetry.
  destruct (Z.compare_spec e1 e2) as [-> | Hlt | Hgt].
  - pose proof (bounded_exp _ _ H2).
    assert (0 < 2 ^ (e2 + U)) by (apply pow_pos; lia).
    change (Pos.compare_cont Eq m1 m2) with (Zpos m1 ?= Zpos m2).
    destruct (Z.compare_spec (Zpos m1) (Zpos m2)) as [E | L | G].
    + rewrite E. apply Z.compare_refl.
    + apply Z.compare_lt_iff. nia.
    + apply Z.compare_gt_iff. nia.
  - apply Z.compare_lt_iff. by apply canonical_exp_lt.
  - apply Z.compare_gt_iff. by apply canonical_exp_lt.
Qed.

Theorem SFcompare_val x y :
  valid x -> valid y -> SFcompare x y = Some (val x ?= val y).
Proof.
  intros Hx Hy.
  destruct x as [sx | sx | | sx mx ex], y as [sy | sy | | sy my ey];
    try done; cbn [valid] in Hx, Hy; cbn [SFcompare val].
  - pose proof (bounded_exp _ _ Hy).
    assert (0 < 2 ^ (ey + U)) by (apply pow_pos; lia).
    f_equal. symmetry. destruct sy; cbn [cond_Zopp].
    + apply Z.compare_gt_iff. nia.
    + apply Z.compare_lt_iff. nia.
  - pose proof (bounded_exp _ _ Hx).
    assert (0 < 2 ^ (ex + U)) by (apply pow_pos; lia).
    f_equal. symmetry. destruct sx; cbn [cond_Zopp].
    + apply Z.compare_lt_iff. nia.
    + apply Z.compare_gt_iff. nia.
  - pose proof (bounded_exp _ _ Hx). pose proof (bounded_exp _ _ Hy).
    assert (0 < 2 ^ (ex + U)) by (apply pow_pos; lia).
    assert (0 < 2 ^ (ey + U)) by (apply pow_pos; lia).
    f_equal. destruct sx, sy; cbn [cond_Zopp].
    + rewrite Z.compare_opp, <- (compare_mag my ey mx ex) by done.
      rewrite (Z.compare_antisym ex ey).
      change (Pos.compare_cont Eq my mx) with (Pos.compare my mx).
      change (Pos.compare_cont Eq mx my) with (Pos.compare mx my).
      rewrite (Pos.compare_antisym mx my).
      by destruct (ex ?= ey), (mx ?= my)%positive.
    + symmetry. apply Z.compare_lt_iff. nia.
    + symmetry. apply Z.compare_gt_iff. nia.
    + by apply compare_mag.
Qed.


Lemma SFltb_val x y : valid x -> valid y ->
  SFltb x y = true <-> val x < val y.
Proof.
  intros Hx Hy. unfold SFltb. rewrite (SFcompare_val x y Hx Hy).
  destruct (Z.compare_spec (val x) (val y)); split; (done || lia).
Qed.

(** ** Visual Scaling on values *)

Lemma moderate_valid x : moderate x -> valid x.
Proof. destruct x; cbn; tauto. Qed.

Lemma pow2_split a b : 0 <= a -> 0 <= b -> 2 ^ (a + b) = 2 ^ a * 2 ^ b.
Proof. intros. by apply Z.pow_add_r. Qed.

Lemma moderate_val_bound x : moderate x -> - (2 ^ (1022 + U)) < val x < 2 ^ (1022 + U).
Proof.
  destruct x as [s | s | | s m e]; cbn [moderate val]; [| done | done |].
  - intros _. assert (0 < 2 ^ (1022 + U)) by (apply Z.pow_pos_nonneg; lia). lia.
  - intros [Hb He]. pose proof (bounded_exp _ _ Hb) as Be.
    apply bounded_iff in Hb as [Hc _].
    destruct (Zdigits2_spec (Zpos m) ltac:(lia)) as (_ & _ & Hu).
    assert (Zdigits2 (Zpos m) <= 53) by (unfold fexp64 in Hc; lia).
    assert (2 ^ Zdigits2 (Zpos m) <= 2 ^ 53) by (apply Z.pow_le_mono_r; lia).
    assert (0 < 2 ^ (e + U)) by (apply pow_pos; lia).
    assert (2 ^ 53 * 2 ^ (e + U) <= 2 ^ (1022 + U)).
    { rewrite <- Z.pow_add_r by lia. apply Z.pow_le_mono_r; lia. }
    destruct s; cbn [cond_Zopp]; nia.
Qed.

(** The largest value a subtraction of moderate numbers can round to. *)
Lemma RN_pow2_1023 : RN (2 ^ (1023 + U)) 1 = 2 ^ (1023 + U).
Proof.
  assert (2 ^ (1023 + U) = 2 ^ 52 * 2 ^ (971 + U)) as ->.
  { rewrite <- Z.pow_add_r by lia. f_equal; lia. }
  apply RN_exact. split; [reflexivity |]. reflexivity.
Qed.

Lemma pow2_1023_lt : 2 ^ (1023 + U) < 2 ^ (1024 + U).
Proof. apply Z.pow_lt_mono_r; lia. Qed.

(** One in units of [2^-U]. *)
Lemma RN_one : RN (2 ^ U) 1 = 2 ^ U.
Proof.
  assert (2 ^ U = 2 ^ 52 * 2 ^ (-52 + U)) as E.
  { rewrite <- Z.pow_add_r by lia. f_equal; lia. }
  rewrite E at 1. rewrite (RN_exact (2 ^ 52) (-52)); [by rewrite <- E |].
  split; reflexivity.
Qed.

Lemma RN_small : RN (2 ^ (U - 1074)) 1 = 2 ^ (U - 1074).
Proof.
  replace (U - 1074) with (-1074 + U) by lia.
  rewrite <- (Z.mul_1_l (2 ^ (-1074 + U))).
  apply RN_exact. split; reflexivity.
Qed.

Lemma val_multiple x : valid x -> exists k, val x = k * 2 ^ (U - 1074).
Proof.
  destruct x as [s | s | | s m e]; cbn [valid val]; [| done | done |].
  - intros _. by exists 0.
  - intros Hb%bounded_exp.
    exists (cond_Zopp s (Zpos m * 2 ^ (e + 1074))).
    rewrite cond_Zopp_mul. f_equal.
    rewrite <- Z.mul_assoc, <- Z.pow_add_r by lia. do 2 f_equal; lia.
Qed.


Lemma f64_of_Z_295 : f64_of_Z (max_display_size - min_display_size) = c295.
Proof. reflexivity. Qed.

Lemma f64_of_Z_5 : f64_of_Z min_display_size = c5.
Proof. reflexivity. Qed.

Lemma f64_of_Z_300 : f64_of_Z max_display_size = c300.
Proof. reflexivity. Qed.

Lemma val_c295 : val c295 = 295 * 2 ^ U.
Proof.
  cbn [val c295 cond_Zopp].
  assert (2 ^ U = 2 ^ 44 * 2 ^ (-44 + U)) as ->.
  { rewrite <- Z.pow_add_r by lia. f_equal; lia. }
  change (2 ^ 44) with 17592186044416. lia.
Qed.

Lemma val_c5 : val c5 = 5 * 2 ^ U.
Proof.
  cbn [val c5 cond_Zopp].
  assert (2 ^ U = 2 ^ 50 * 2 ^ (-50 + U)) as ->.
  { rewrite <- Z.pow_add_r by lia. f_equal; lia. }
  change (2 ^ 50) with 1125899906842624. lia.
Qed.

Lemma val_c300 : val c300 = 300 * 2 ^ U.
Proof.
  cbn [val c300 cond_Zopp].
  assert (2 ^ U = 2 ^ 44 * 2 ^ (-44 + U)) as ->.
  { rewrite <- Z.pow_add_r by lia. f_equal; lia. }
  change (2 ^ 44) with 17592186044416. lia.
Qed.

Lemma nonneg_c295 : nonneg c295. Proof. split; reflexivity. Qed.
Lemma nonneg_c5 : nonneg c5. Proof. split; reflexivity. Qed.
Lemma nonneg_c300 : nonneg c300. Proof. split; reflexivity. Qed.

Lemma pow_U_pos : 0 < 2 ^ U.
Proof. apply Z.pow_pos_nonneg; lia. Qed.

(** *** The integer function [size_val] *)

Lemma RN_mono_num N1 N2 D :
  0 <= N1 <= N2 -> 0 < D -> RN N1 D <= RN N2 D.
Proof.
  intros HN HD. apply RN_mono; try lia.
  apply Z.mul_le_mono_nonneg_r; lia.
Qed.


(** The intermediate values stay below one, 295 and 300. *)
Lemma size_val_steps W d :
  0 < W -> 0 <= d -> RN d 1 <= W ->
  0 <= RN d 1
  /\ 0 <= RN (RN d 1 * 2 ^ U) W <= 2 ^ U
  /\ 0 <= RN (RN (RN d 1 * 2 ^ U) W * (295 * 2 ^ U)) (2 ^ U) <= 295 * 2 ^ U
  /\ 5 * 2 ^ U <= size_val W d <= 300 * 2 ^ U.
Proof.
  intros HW Hd Hle. pose proof pow_U_pos as HpU.
  pose proof (RN_nonneg d 1 ltac:(lia) ltac:(lia)) as N1.
  unfold size_val. set (u := RN d 1) in *.
  assert (0 <= u * 2 ^ U) as M1 by nia.
  pose proof (RN_nonneg (u * 2 ^ U) W M1 HW) as N2.
  assert (RN (u * 2 ^ U) W <= 2 ^ U) as B2.
  { pose proof RN_one as E1.
    assert (RN (u * 2 ^ U) W <= RN (2 ^ U) 1); [| lia].
    apply RN_mono; try lia.
    rewrite Z.mul_1_r, (Z.mul_comm u). apply Z.mul_le_mono_nonneg_l; lia. }
  set (t := RN (u * 2 ^ U) W) in *.
  assert (0 <= t * (295 * 2 ^ U) <= 295 * 2 ^ U * 2 ^ U) as M2 by nia.
  pose proof (RN_nonneg (t * (295 * 2 ^ U)) (2 ^ U) ltac:(lia) HpU) as N3.
  assert (RN (t * (295 * 2 ^ U)) (2 ^ U) <= 295 * 2 ^ U) as B3.
  { pose proof (RN_val c295 nonneg_c295) as E295. rewrite val_c295 in E295.
    assert (RN (t * (295 * 2 ^ U)) (2 ^ U) <= RN (295 * 2 ^ U) 1); [| lia].
    apply RN_mono; lia. }
  set (p := RN (t * (295 * 2 ^ U)) (2 ^ U)) in *.
  repeat split; try done.
  - pose proof (RN_val c5 nonneg_c5) as E5. rewrite val_c5 in E5.
    assert (RN (5 * 2 ^ U) 1 <= RN (p + 5 * 2 ^ U) 1); [| lia].
    apply RN_mono_num; lia.
  - pose proof (RN_val c300 nonneg_c300) as E300. rewrite val_c300 in E300.
    assert (RN (p + 5 * 2 ^ U) 1 <= RN (300 * 2 ^ U) 1); [| lia].
    apply RN_mono_num; lia.
Qed.

(** *** The float computation follows [size_val] *)

Lemma nonneg_pos_finite x :
  nonneg x -> 0 < val x ->
  exists m e, x = S754_finite false m e /\ bounded 53 1024 m e = true.
Proof.
  destruct x as [s | s | | s m e]; cbn [nonneg val]; try done; try lia.
  intros [-> Hb] _. eauto.
Qed.

Section DisplaySize.

Variables mn mx : spec_float.
Hypothesis Hmn : moderate mn.
Hypothesis Hmx : moderate mx.
Hypothesis Hlt : val mn < val mx.

Lemma range_spec :
  nonneg (f64_sub mx mn)
  /\ val (f64_sub mx mn) = RN (val mx - val mn) 1
  /\ 0 < val (f64_sub mx mn).
Proof.
  pose proof (moderate_val_bound mn Hmn). pose proof (moderate_val_bound mx Hmx).
  pose proof pow2_1023_lt.
  assert (2 ^ (1023 + U) = 2 * 2 ^ (1022 + U)) as E.
  { rewrite <- Z.pow_succ_r by lia. f_equal; lia. }
  assert (RN (val mx - val mn) 1 <= 2 ^ (1023 + U)) as Hb.
  { rewrite <- RN_pow2_1023. apply RN_mono; lia. }
  destruct (SFsub_spec mx mn) as [Hn Hv];
    [by apply moderate_valid | by apply moderate_valid | lia | lia |].
  split; [done |]. split; [done |]. unfold f64_sub, prec, emax. rewrite Hv.
  destruct (val_multiple mn (moderate_valid _ Hmn)) as [k1 E1].
  destruct (val_multiple mx (moderate_valid _ Hmx)) as [k2 E2].
  assert (0 < 2 ^ (U - 1074)) as Hp by (apply Z.pow_pos_nonneg; lia).
  assert (2 ^ (U - 1074) <= val mx - val mn).
  { rewrite E1, E2 in Hlt. apply Z.mul_lt_mono_pos_r in Hlt; [| done].
    rewrite E1, E2, <- Z.mul_sub_distr_r.
    rewrite <- (Z.mul_1_l (2 ^ (U - 1074))) at 1.
    apply Z.mul_le_mono_nonneg_r; lia. }
  assert (RN (2 ^ (U - 1074)) 1 <= RN (val mx - val mn) 1)
    by (apply RN_mono; lia).
  rewrite RN_small in *. lia.
Qed.

Lemma step_sub x :
  moderate x -> val mn <= val x <= val mx ->
  nonneg (f64_sub x mn)
  /\ val (f64_sub x mn) = RN (val x - val mn) 1
  /\ RN (val x - val mn) 1 <= val (f64_sub mx mn).
Proof.
  intros Hx Hr. destruct range_spec as (Hwn & Hwv & Hwp).
  pose proof (moderate_val_bound mn Hmn). pose proof (moderate_val_bound mx Hmx).
  pose proof (moderate_val_bound x Hx).
  pose proof pow2_1023_lt.
  assert (2 ^ (1023 + U) = 2 * 2 ^ (1022 + U)) as E.
  { rewrite <- Z.pow_succ_r by lia. f_equal; lia. }
  assert (RN (val x - val mn) 1 <= 2 ^ (1023 + U)) as Hb.
  { pose proof RN_pow2_1023.
    assert (RN (val x - val mn) 1 <= RN (2 ^ (1023 + U)) 1); [| lia].
    apply RN_mono_num; lia. }
  destruct (SFsub_spec x mn) as [Hun Huv];
    [by apply moderate_valid | by apply moderate_valid | lia | lia |].
  split; [done |]. split; [done |].
  rewrite Hwv. apply RN_mono_num; lia.
Qed.

Lemma pow_1024_U : 300 * 2 ^ U < 2 ^ (1024 + U).
Proof.
  pose proof pow_U_pos.
  assert (2 ^ 9 * 2 ^ U <= 2 ^ (1024 + U)).
  { rewrite <- Z.pow_add_r by lia. apply Z.pow_le_mono_r; lia. }
  change (2 ^ 9) with 512 in *. lia.
Qed.

Lemma step_div u :
  nonneg u -> val u <= val (f64_sub mx mn) ->
  nonneg (f64_div u (f64_sub mx mn))
  /\ val (f64_div u (f64_sub mx mn))
     = RN (val u * 2 ^ U) (val (f64_sub mx mn)).
Proof.
  intros Hu Hle. destruct range_spec as (Hwn & Hwv & Hwp).
  pose proof pow_U_pos as HpU. pose proof pow_1024_U.
  pose proof (nonneg_val u Hu) as Hu0.
  destruct (nonneg_pos_finite _ Hwn Hwp) as (mw & ew & Ew & Hbw).
  rewrite Ew in *.
  apply SFdiv_spec; [done | done |].
  assert (RN (val u * 2 ^ U) (val (S754_finite false mw ew)) <= 2 ^ U);
    [| lia].
  pose proof RN_one.
  assert (RN (val u * 2 ^ U) (val (S754_finite false mw ew))
          <= RN (2 ^ U) 1); [| lia].
  assert (0 <= val u * 2 ^ U) by nia.
  apply RN_mono; try lia.
  rewrite Z.mul_1_r, (Z.mul_comm (val u)). apply Z.mul_le_mono_nonneg_l; lia.
Qed.

Lemma step_mul t :
  nonneg t -> val t <= 2 ^ U ->
  nonneg (f64_mul t c295)
  /\ val (f64_mul t c295) = RN (val t * (295 * 2 ^ U)) (2 ^ U).
Proof.
  intros Ht Hle. pose proof pow_U_pos as HpU. pose proof pow_1024_U.
  pose proof (nonneg_val t Ht) as Ht0.
  rewrite <- val_c295.
  apply SFmul_spec; [done | reflexivity | reflexivity |].
  fold c295. rewrite val_c295.
  pose proof (RN_val c295 nonneg_c295) as E295. rewrite val_c295 in E295.
  assert (RN (val t * (295 * 2 ^ U)) (2 ^ U) <= RN (295 * 2 ^ U) 1); [| lia].
  assert (0 <= val t * (295 * 2 ^ U)) by nia.
  apply RN_mono; try lia.
  rewrite Z.mul_1_r, (Z.mul_comm (295 * 2 ^ U) (2 ^ U)).
  apply Z.mul_le_mono_nonneg_r; lia.
Qed.

Lemma step_add p :
  nonneg p -> val p <= 295 * 2 ^ U ->
  nonneg (f64_add p c5)
  /\ val (f64_add p c5) = RN (val p + 5 * 2 ^ U) 1.
Proof.
  intros Hp Hle. pose proof pow_U_pos as HpU. pose proof pow_1024_U.
  pose proof (nonneg_val p Hp) as Hp0.
  rewrite <- val_c5.
  apply SFadd_spec; [done | apply nonneg_c5 |].
  rewrite val_c5.
  pose proof (RN_val c300 nonneg_c300) as E300. rewrite val_c300 in E300.
  assert (RN (val p + 5 * 2 ^ U) 1 <= RN (300 * 2 ^ U) 1); [| lia].
  apply RN_mono_num; lia.
Qed.

Lemma display_size_spec x :
  moderate x -> val mn <= val x <= val mx ->
  nonneg (display_size mn mx x)
  /\ val (display_size mn mx x)
     = size_val (val (f64_sub mx mn)) (val x - val mn)
  /\ RN (val x - val mn) 1 <= val (f64_sub mx mn).
Proof.
  intros Hx Hr. destruct range_spec as (Hwn & Hwv & Hwp).
  destruct (step_sub x Hx Hr) as (Hun & Huv & Hule).
  destruct (size_val_steps (val (f64_sub mx mn)) (val x - val mn))
    as (S1 & S2 & S3 & S4); [done | lia | done |].
  destruct (step_div (f64_sub x mn) Hun) as [Htn Htv]; [lia |].
  rewrite Huv in Htv.
  destruct (step_mul _ Htn) as [Hpn Hpv]; [rewrite Htv; lia |].
  rewrite Htv in Hpv.
  destruct (step_add _ Hpn) as [Hzn Hzv]; [rewrite Hpv; lia |].
  rewrite Hpv in Hzv.
  unfold display_size. rewrite f64_of_Z_295, f64_of_Z_5.
  split; [done |]. split; [exact Hzv | done].
Qed.

End DisplaySize.

(** *** Smallest and largest log-value *)

Lemma np_minimum_spec a b :
  valid a -> valid b ->
  (np_minimum a b = a \/ np_minimum a b = b)
  /\ val (np_minimum a b) = Z.min (val a) (val b).
Proof.
  intros Ha Hb. unfold np_minimum. rewrite (SFcompare_val a b Ha Hb).
  destruct (Z.compare_spec (val a) (val b)); split; auto; lia.
Qed.

Lemma np_maximum_spec a b :
  valid a -> valid b ->
  (np_maximum a b = a \/ np_maximum a b = b)
  /\ val (np_maximum a b) = Z.max (val a) (val b).
Proof.
  intros Ha Hb. unfold np_maximum. rewrite (SFcompare_val a b Ha Hb).
  destruct (Z.compare_spec (val a) (val b)); split; auto; lia.
Qed.

Lemma fold_np_minimum l : forall a,
  moderate a -> Forall moderate l ->
  moderate (fold_left np_minimum l a)
  /\ val (fold_left np_minimum l a) <= val a
  /\ Forall (fun x => val (fold_left np_minimum l a) <= val x) l.
Proof.
  induction l as [| x l IH]; intros a Ha Hl; cbn [fold_left].
  - repeat split; [done | lia | constructor].
  - apply Forall_cons in Hl as [Hx Hl].
    destruct (np_minimum_spec a x) as [Hor Hv];
      [by apply moderate_valid | by apply moderate_valid |].
    assert (moderate (np_minimum a x)) as Hm by (by destruct Hor as [-> | ->]).
    destruct (IH _ Hm Hl) as (I1 & I2 & I3).
    repeat split; [done | lia |].
    constructor; [lia | done].
Qed.

Lemma fold_np_maximum l : forall a,
  moderate a -> Forall moderate l ->
  moderate (fold_left np_maximum l a)
  /\ val a <= val (fold_left np_maximum l a)
  /\ Forall (fun x => val x <= val (fold_left np_maximum l a)) l.
Proof.
  induction l as [| x l IH]; intros a Ha Hl; cbn [fold_left].
  - repeat split; [done | lia | constructor].
  - apply Forall_cons in Hl as [Hx Hl].
    destruct (np_maximum_spec a x) as [Hor Hv];
      [by apply moderate_valid | by apply moderate_valid |].
    assert (moderate (np_maximum a x)) as Hm by (by destruct Hor as [-> | ->]).
    destruct (IH _ Hm Hl) as (I1 & I2 & I3).
    repeat split; [done | lia |].
    constructor; [lia | done].
Qed.

Lemma np_min_spec l mn :
  Forall moderate l -> np_min l = Some mn ->
  moderate mn /\ Forall (fun x => val mn <= val x) l.
Proof.
  intros Hl Hmin. destruct l as [| a l]; [done |].
  cbn [np_min] in Hmin. injection Hmin as <-.
  apply Forall_cons in Hl as [Ha Hl].
  destruct (fold_np_minimum l a Ha Hl) as (I1 & I2 & I3).
  split; [done |]. by constructor.
Qed.

Lemma np_max_spec l mx :
  Forall moderate l -> np_max l = Some mx ->
  moderate mx /\ Forall (fun x => val x <= val mx) l.
Proof.
  intros Hl Hmax. destruct l as [| a l]; [done |].
  cbn [np_max] in Hmax. injection Hmax as <-.
  apply Forall_cons in Hl as [Ha Hl].
  destruct (fold_np_maximum l a Ha Hl) as (I1 & I2 & I3).
  split; [done |]. by constructor.
Qed.

Lemma scale_sizes_display l mn mx :
  np_min l = Some mn -> np_max l = Some mx ->
  scale_sizes l = Some (List.map (display_size mn mx) l).
Proof.
  intros Hmin Hmax. unfold scale_sizes. rewrite Hmin, Hmax.
  cbn [mbind option_bind]. by rewrite List.map_map.
Qed.

(** The sizes computed from log-values that are not all equal. *)
Lemma scale_sizes_spec l :
  Forall moderate l ->
  (exists a b, a ∈ l /\ b ∈ l /\ SFltb a b = true) ->
  exists mn mx,
    scale_sizes l = Some (List.map (display_size mn mx) l)
    /\ moderate mn /\ moderate mx /\ val mn < val mx
    /\ Forall (fun x => val mn <= val x <= val mx) l.
Proof.
  intros Hl (a & b & Ha & Hb & Hab).
  destruct l as [| x l]; [by apply elem_of_nil in Ha |].
  destruct (np_min_spec (x :: l) _ Hl eq_refl) as [Hmn Hlo].
  destruct (np_max_spec (x :: l) _ Hl eq_refl) as [Hmx Hhi].
  eexists _, _. split; [by apply scale_sizes_display |].
  split; [done |]. split; [done |].
  rewrite Forall_forall in Hl, Hlo, Hhi.
  split.
  - apply SFltb_val in Hab; [| by apply moderate_valid, Hl ..].
    specialize (Hlo a Ha). specialize (Hhi b Hb). lia.
  - apply Forall_forall. intros y Hy. split; [by apply Hlo | by apply Hhi].
Qed.

(** *** The argument of the logarithm *)




Lemma sizes_log_map log10 scores :
  sizes_log log10 scores = List.map (log_value log10) scores.
Proof. reflexivity. Qed.

Lemma elem_of_map {A B} (f : A -> B) (l : list A) (y : B) :
  y ∈ List.map f l <-> exists x, y = f x /\ x ∈ l.
Proof.
  rewrite list_elem_of_In, in_map_iff. split.
  - intros (x & <- & Hx%list_elem_of_In). eauto.
  - intros (x & -> & Hx%list_elem_of_In). eauto.
Qed.


End Rounding.


Example visual_scaling_sample :
  node_sizes_scaled log10_sample [score_quarter; score_three_quarters]
  = Some [f64_of_Z 5; f64_of_Z 300].
Proof. vm_compute. reflexivity. Qed.


Local Close Scope Z_scope.

(** * Further properties of the loaders and of the Graph Filter *)

Section EdgeLoaderNodes.

Lemma row_pair_inj r u v u' v' :
  row_pair r u v → row_pair r u' v' → u = u' ∧ v = v'.
Proof. intros (Hu & Hv & _) (Hu' & Hv' & _). split; congruence. Qed.

Lemma elem_of_nodes_add_edge u v g n :
  n ∈ nodes (add_edge u v g) ↔ n = u ∨ n = v ∨ n ∈ nodes g.
Proof. cbn. rewrite !elem_of_add_to. tauto. Qed.

Lemma foldl_build_nodes reader : ∀ g n,
  n ∈ nodes (foldl build_graph_row g reader)
  ↔ n ∈ nodes g
    ∨ ∃ r u v, r ∈ reader ∧ row_pair r u v ∧ (n = u ∨ n = v).
Proof.
  induction reader as [| r reader IH]; intros g n; cbn.
  - split; [auto |]. intros [? | (r & u & v & Hr & _)]; [done |].
    by apply elem_of_nil in Hr.
  - rewrite IH. destruct (build_graph_row_cases r g)
      as [(u & v & Hp & ->) | (Hno & ->)].
    + rewrite elem_of_nodes_add_edge. split.
      * intros [[-> | [-> | ?]] | (r' & u' & v' & Hr' & Hp' & Hn)]; auto.
        -- right. exists r, u, v. split; [left | auto].
        -- right. exists r, u, v. split; [left | auto].
        -- right. exists r', u', v'. split; [by right | auto].
      * intros [? | (r' & u' & v' & Hr' & Hp' & Hn)]; [auto |].
        apply elem_of_cons in Hr' as [-> | Hr'].
        -- destruct (row_pair_inj _ _ _ _ _ Hp Hp') as [<- <-]. tauto.
        -- right. by exists r', u', v'.
    + split.
      * intros [? | (r' & u' & v' & Hr' & Hp' & Hn)]; [auto |].
        right. exists r', u', v'. split; [by right | auto].
      * intros [? | (r' & u' & v' & Hr' & Hp' & Hn)]; [auto |].
        apply elem_of_cons in Hr' as [-> | Hr'].
        -- destruct Hno. by exists u', v'.
        -- right. by exists r', u', v'.
Qed.

Lemma foldl_build_nodes_NoDup reader : ∀ g,
  NoDup (nodes g) → NoDup (nodes (foldl build_graph_row g reader)).
Proof.
  induction reader as [| r reader IH]; intros g Hg; cbn; [done |].
  apply IH. destruct (build_graph_row_cases r g)
    as [(u & v & _ & ->) | (_ & ->)]; [| done].
  cbn. by do 2 apply NoDup_add_to.
Qed.

(** The nodes of the graph built from the empty graph are the endpoints of
    its edges. *)
Lemma build_nodes_endpoints reader n :
  n ∈ nodes (foldl build_graph_row empty_graph reader)
  ↔ ∃ u v, (u, v) ∈ edges (foldl build_graph_row empty_graph reader)
           ∧ (n = u ∨ n = v).
Proof.
  rewrite foldl_build_nodes. split.
  - intros [Hn | (r & u & v & Hr & Hp & Hn)]; [by apply elem_of_nil in Hn |].
    exists u, v. split; [| done]. apply foldl_build_edges. right. by exists r.
  - intros (u & v & He & Hn). right.
    apply foldl_build_edges in He as [He | (r & Hr & Hp)];
      [by apply elem_of_nil in He |].
    by exists r, u, v.
Qed.

Lemma length_endpoints (l : list (pystr * pystr)) :
  length (l ≫= λ e, [e.1; e.2]) = (2 * length l)%nat.
Proof. induction l as [| e l IH]; cbn; [done |]. rewrite IH. lia. Qed.

End EdgeLoaderNodes.

(** X1. The graph the Edge Loader builds from the empty graph has as nodes
    exactly the stations named as src or dst in a row with both cells
    present and non-empty, which are the endpoints of its edges; no node
    occurs twice, no node has the empty name, and there are at most twice as
    many nodes as edges. *)
Theorem edge_loader_nodes (reader : list row) :
  let g := (build_graph_from_csv (Some reader) empty_graph).1 in
  (∀ n, n ∈ nodes g
        ↔ ∃ r u v, r ∈ reader ∧ row_pair r u v ∧ (n = u ∨ n = v))
  ∧ (∀ n, n ∈ nodes g ↔ ∃ u v, (u, v) ∈ edges g ∧ (n = u ∨ n = v))
  ∧ NoDup (nodes g)
  ∧ ([] ∉ nodes g)
  ∧ (number_of_nodes g ≤ 2 * number_of_edges g)%nat.
Proof.
  cbn [build_graph_from_csv fst]. split; [| split; [| split; [| split]]].
  - intros n. rewrite foldl_build_nodes. split; [| auto].
    intros [Hn | ?]; [by apply elem_of_nil in Hn | done].
  - apply build_nodes_endpoints.
  - apply foldl_build_nodes_NoDup. constructor.
  - intros Hin. apply foldl_build_nodes in Hin
      as [Hn | (r & u & v & _ & (_ & _ & Hu & Hv) & [<- | <-])]; try done.
    by apply elem_of_nil in Hn.
  - unfold number_of_nodes, number_of_edges.
    rewrite <- length_endpoints. apply submseteq_length, NoDup_submseteq.
    + apply foldl_build_nodes_NoDup. constructor.
    + intros n (u & v & He & Hn)%build_nodes_endpoints.
      apply list_elem_of_bind. exists (u, v). split; [| done].
      cbn. destruct Hn as [-> | ->]; [left | right; left].
Qed.

(** ** The Coordinate Loader as a sequence of assignments *)

Section CoordinateAssignments.

Variable float : pystr → option f64.

Lemma assignments_snoc rows r :
  assignments float (rows ++ [r])
  = assignments float rows ++ option_list (coord_entry float r).
Proof.
  unfold assignments. rewrite omap_app. cbn.
  by destruct (coord_entry float r).
Qed.

Lemma elem_of_assignments rows kv :
  kv ∈ assignments float rows
  ↔ ∃ r, r ∈ rows ∧ coord_entry float r = Some kv.
Proof. unfold assignments. by rewrite list_elem_of_omap. Qed.

(** The entry of a key after the loop is the last assignment to it. *)
Lemma foldl_load_row_lookup rows pos key :
  foldl (load_row float) pos rows !! key
  = match last (filter (λ kv, kv.1 = key) (assignments float rows)) with
    | Some kv => Some kv.2
    | None => pos !! key
    end.
Proof.
  induction rows as [| r rows IH] using rev_ind; [done |].
  rewrite foldl_load_row_app, assignments_snoc, filter_app, last_app.
  cbn [foldl]. unfold load_row at 1.
  destruct (coord_entry float r) as [[k v] |]; cbn [option_list option_rect].
  - rewrite filter_cons, filter_nil. cbn [fst].
    destruct (decide (k = key)) as [-> | Hne]; cbn [last snd].
    + apply lookup_insert_eq.
    + by rewrite lookup_insert_ne.
  - by rewrite filter_nil.
Qed.

Lemma foldl_load_row_is_Some rows key :
  is_Some (foldl (load_row float) ∅ rows !! key)
  ↔ ∃ r v, r ∈ rows ∧ coord_entry float r = Some (key, v).
Proof.
  rewrite foldl_load_row_lookup, lookup_empty.
  destruct (last _) as [[k v] |] eqn:Hlast.
  - assert ((k, v) ∈ filter (λ kv : pystr * coords, kv.1 = key)
                       (assignments float rows)) as Hin.
    { apply last_Some in Hlast as [l' ->]. set_solver. }
    apply list_elem_of_filter in Hin as [Hk Hin]. cbn in Hk. subst k.
    apply elem_of_assignments in Hin as (r & Hr & He).
    split; [| eauto]. intros _. by exists r, v.
  - split; [by intros [? ?] |]. intros (r & v & Hr & He).
    apply last_None in Hlast.
    assert ((key, v) ∈ filter (λ kv : pystr * coords, kv.1 = key)
                         (assignments float rows)) as Hin.
    { apply list_elem_of_filter. split; [done |].
      apply elem_of_assignments. eauto. }
    rewrite Hlast in Hin. by apply elem_of_nil in Hin.
Qed.

Lemma size_foldl_load_row rows :
  (size (foldl (load_row float) ∅ rows) ≤ length rows)%nat.
Proof.
  induction rows as [| r rows IH] using rev_ind; [done |].
  rewrite foldl_load_row_app, length_app. cbn [foldl length].
  unfold load_row at 1. destruct (coord_entry float r) as [[k v] |]; [| lia].
  rewrite map_size_insert.
  destruct (foldl (load_row float) ∅ rows !! k); cbn; lia.
Qed.

Lemma normalize_nil name :
  name ≠ [] → (normalize name = [] ↔ name = [designator]).
Proof.
  intros Hne. split; [| by intros ->].
  unfold normalize. destruct (endswith name designator) eqn:He; [| done].
  apply endswith_iff in He as [base ->]. unfold drop_last.
  rewrite removelast_last. by intros ->.
Qed.

End CoordinateAssignments.

(** X3. The map the Coordinate Loader returns for a readable file holds,
    under each key, the coordinates of the last accepted record whose
    normalized name is that key, and nothing under a key that no accepted
    record is stored under. *)
Theorem coordinate_lookup_last (float : pystr → option f64)
    (rows : list row) (key : pystr) :
  ∃ pos, load_coordinates_from_csv float (Some rows) = Some pos
    ∧ pos !! key
      = snd <$> last (filter (λ kv, kv.1 = key) (assignments float rows)).
Proof.
  eexists. split; [reflexivity |].
  rewrite foldl_load_row_lookup, lookup_empty. by destruct (last _).
Qed.

(** X4. The keys of the returned map are the normalized names of the
    accepted records; the map is empty (the warning of line 72) exactly
    when no record is accepted; it has at most one entry per record; and it
    holds an entry under the empty name exactly when an accepted record is
    named by the designator character alone. *)
Theorem coordinate_keys (float : pystr → option f64) (rows : list row) :
  ∃ pos, load_coordinates_from_csv float (Some rows) = Some pos
    ∧ (∀ key, is_Some (pos !! key)
         ↔ ∃ r name, r ∈ rows ∧ accepted float r
             ∧ row_get r col_name = Some name ∧ key = normalize name)
    ∧ (pos = ∅ ↔ ∀ r, r ∈ rows → ¬ accepted float r)
    ∧ (size pos ≤ length rows)%nat
    ∧ (is_Some (pos !! []) ↔ ∃ r, r ∈ rows ∧ accepted float r
                               ∧ row_get r col_name = Some [designator]).
Proof.
  eexists. split; [reflexivity |].
  assert (∀ key, is_Some (foldl (load_row float) ∅ rows !! key)
         ↔ ∃ r name, r ∈ rows ∧ accepted float r
             ∧ row_get r col_name = Some name ∧ name ≠ []
             ∧ key = normalize name) as Hkeys.
  { intros key. rewrite foldl_load_row_is_Some. split.
    - intros (r & [x y] & Hr & He). exists r.
      assert (accepted float r) as Hacc
        by (apply coord_entry_accepted; eauto).
      apply coord_entry_Some in He
        as (name & _ & _ & [Hn Hne] & _ & _ & _ & _ & ->).
      by exists name.
    - intros (r & name & Hr & Hacc & Hn & _ & ->).
      apply coord_entry_accepted in Hacc as [[k [x y]] He].
      exists r, (x, y). split; [done |]. rewrite He.
      apply coord_entry_Some in He
        as (name' & _ & _ & [Hn' _] & _ & _ & _ & _ & ->).
      congruence. }
  split; [| split; [| split]].
  - intros key. rewrite Hkeys. split.
    + intros (r & name & ? & ? & ? & _ & ?). by exists r, name.
    + intros (r & name & Hr & Hacc & Hn & ->). exists r, name.
      pose proof Hacc as (name' & _ & _ & [Hn' Hne] & _).
      assert (name = name') as -> by congruence.
      do 4 (split; [done |]). done.
  - split.
    + intros Hempty r Hr Hacc.
      apply coord_entry_accepted in Hacc as [[k v] He].
      assert (is_Some (foldl (load_row float) ∅ rows !! k)) as [c Hc]
        by (apply foldl_load_row_is_Some; eauto).
      by rewrite Hempty, lookup_empty in Hc.
    + intros Hno. apply map_empty. intros k.
      apply eq_None_not_Some. intros (r & v & Hr & He)%foldl_load_row_is_Some.
      apply (Hno r Hr), coord_entry_accepted. eauto.
  - apply size_foldl_load_row.
  - rewrite Hkeys. split.
    + intros (r & name & Hr & Hacc & Hn & Hne & Hnil). exists r.
      symmetry in Hnil. apply normalize_nil in Hnil; [| done]. by subst name.
    + intros (r & Hr & Hacc & Hn). by exists r, [designator].
Qed.

(** ** The filtered graph *)

Section FilteredGraph.

Variable G : DiGraph.
Variable pos : gmap (list N) coords.

Lemma elem_of_valid_nodes_filtered n :
  n ∈ valid_nodes (G_filtered G pos) (pos_filtered G pos)
  ↔ n ∈ valid_nodes G pos.
Proof.
  rewrite !elem_of_valid_nodes, elem_of_nodes_G_filtered. split.
  - tauto.
  - intros [Hn [c Hc]]. repeat split; eauto.
    exists c. by apply lookup_pos_filtered.
Qed.

Lemma DiGraph_eq (g1 g2 : DiGraph) :
  nodes g1 = nodes g2 → edges g1 = edges g2 → g1 = g2.
Proof. destruct g1, g2. cbn. by intros -> ->. Qed.

Lemma nodes_G_filtered :
  nodes (G_filtered G pos)
  = filter (λ n, n ∈ valid_nodes G pos) (nodes G).
Proof. reflexivity. Qed.

Lemma edges_G_filtered :
  edges (G_filtered G pos)
  = filter (λ e, e.1 ∈ valid_nodes G pos ∧ e.2 ∈ valid_nodes G pos)
      (edges G).
Proof. reflexivity. Qed.

Lemma valid_nodes_nodes_G_filtered n :
  n ∈ valid_nodes G pos ↔ n ∈ nodes (G_filtered G pos).
Proof. by rewrite elem_of_valid_nodes, elem_of_nodes_G_filtered. Qed.

End FilteredGraph.


(** X6. Filtering is idempotent: the Graph Filter applied to the filtered
    graph and the filtered coordinate map returns them unchanged. *)
Theorem graph_filter_idempotent (G : DiGraph) (pos : gmap (list N) coords) :
  G_filtered (G_filtered G pos) (pos_filtered G pos) = G_filtered G pos
  ∧ pos_filtered (G_filtered G pos) (pos_filtered G pos)
    = pos_filtered G pos.
Proof.
  split.
  - apply DiGraph_eq.
    + rewrite nodes_G_filtered, (nodes_G_filtered G pos).
      apply list_filter_filter_r.
      intros n Hn. by apply elem_of_valid_nodes_filtered.
    + rewrite edges_G_filtered, (edges_G_filtered G pos).
      apply list_filter_filter_r.
      intros e [H1 H2]. by rewrite !elem_of_valid_nodes_filtered.
  - unfold pos_filtered at 1. unfold restrict_pos.
    unfold pos_filtered at 2 3. unfold restrict_pos.
    apply map_filter_filter_r. intros k c _ Hk. cbn in *.
    by apply elem_of_valid_nodes_filtered.
Qed.

(** X7. From the rows of the two files to the filtered graph: a station is
    a node of the filtered graph exactly when a usable line row names it as
    src or dst and it is the normalized name of an accepted coordinate
    record; a pair is an edge exactly when some line row names it as
    (src, dst), both non-empty, and both stations are normalized names of
    accepted coordinate records. *)
Theorem pipeline_graph (float : pystr → option f64)
    (line_rows coords_rows : list row) :
  ∃ pos, load_coordinates_from_csv float (Some coords_rows) = Some pos
    ∧ (∀ n, n ∈ nodes (G_filtered
                         (build_graph_from_csv (Some line_rows) empty_graph).1
                         pos)
         ↔ (∃ r u v, r ∈ line_rows ∧ row_pair r u v ∧ (n = u ∨ n = v))
           ∧ (∃ r c, r ∈ coords_rows ∧ coord_entry float r = Some (n, c)))
    ∧ (∀ u v, (u, v) ∈ edges (G_filtered
                         (build_graph_from_csv (Some line_rows) empty_graph).1
                         pos)
         ↔ (∃ r, r ∈ line_rows ∧ row_pair r u v)
           ∧ (∃ r c, r ∈ coords_rows ∧ coord_entry float r = Some (u, c))
           ∧ (∃ r c, r ∈ coords_rows ∧ coord_entry float r = Some (v, c))).
Proof.
  eexists. split; [reflexivity |]. cbn [build_graph_from_csv fst]. split.
  - intros n. rewrite elem_of_nodes_G_filtered, foldl_load_row_is_Some,
      foldl_build_nodes. split; [| tauto].
    intros [[Hn | ?] ?]; [by apply elem_of_nil in Hn | done].
  - intros u v.
    rewrite elem_of_edges_G_filtered, !elem_of_valid_nodes,
      !foldl_load_row_is_Some.
    assert ((u, v) ∈ edges (foldl build_graph_row empty_graph line_rows)
            ↔ ∃ r, r ∈ line_rows ∧ row_pair r u v) as ->.
    { rewrite foldl_build_edges. split; [| auto].
      intros [He | ?]; [by apply elem_of_nil in He | done]. }
    split; [tauto |]. intros ((r & Hr & Hp) & Hu & Hv).
    split; [eauto |]. split; (split; [| done]).
    + apply foldl_build_nodes. right. exists r, u, v. auto.
    + apply foldl_build_nodes. right. exists r, u, v. auto.
Qed.

(** * Properties of the Label Selector and of the score lookup *)

Section Labels.

Lemma map_fmap {A B} (f : A → B) (l : list A) : List.map f l = f <$> l.
Proof. induction l as [| x l IH]; cbn; [done |]. by rewrite IH. Qed.

Lemma sorted_stations_split (pagerank_scores : list item) :
  label_set pagerank_scores ++ drop top_k (sorted_stations pagerank_scores)
  = sorted_stations pagerank_scores.
Proof. apply take_drop. Qed.

Lemma label_set_sublist (pagerank_scores : list item) :
  label_set pagerank_scores `sublist_of` sorted_stations pagerank_scores.
Proof. apply sublist_take. Qed.

Lemma elem_of_labels_to_draw pagerank_scores k :
  k ∈ labels_to_draw pagerank_scores
  ↔ ∃ s, (k, s) ∈ label_set pagerank_scores.
Proof.
  unfold labels_to_draw. rewrite elem_of_map. split.
  - intros ([k' s] & -> & Hin). by exists s.
  - intros [s Hin]. by exists (k, s).
Qed.

Lemma labels_to_draw_sublist pagerank_scores :
  labels_to_draw pagerank_scores
  `sublist_of` (sorted_stations pagerank_scores).*1.
Proof.
  unfold labels_to_draw, label_set. rewrite map_fmap, fmap_take.
  apply sublist_take.
Qed.

Lemma sorted_stations_keys pagerank_scores :
  (sorted_stations pagerank_scores).*1 ≡ₚ pagerank_scores.*1.
Proof.
  unfold sorted_stations. by rewrite sorted_reverse_Permutation.
Qed.

Lemma length_labels_to_draw pagerank_scores :
  (length (labels_to_draw pagerank_scores) ≤ top_k)%nat.
Proof.
  unfold labels_to_draw, label_set. rewrite length_map, length_take. lia.
Qed.

Lemma NoDup_labels_to_draw pagerank_scores :
  NoDup pagerank_scores.*1 → NoDup (labels_to_draw pagerank_scores).
Proof.
  intros Hnd.
  eapply sublist_NoDup; [| apply labels_to_draw_sublist].
  by rewrite sorted_stations_keys.
Qed.

Lemma score_get_first pagerank_scores node s :
  NoDup pagerank_scores.*1 → (node, s) ∈ pagerank_scores →
  score_get pagerank_scores node = s.
Proof.
  intros Hnd Hin. unfold score_get.
  destruct (list_find_elem_of (λ kv : item, kv.1 = node) _ _ Hin eq_refl)
    as [[i [k s']] Hfind].
  rewrite Hfind. apply list_find_Some in Hfind as (Hi & Hk & _).
  cbn in Hk. subst k.
  apply list_elem_of_lookup_2 in Hi.
  apply list_elem_of_lookup in Hin as [j Hj], Hi as [i' Hi'].
  assert (pagerank_scores.*1 !! j = Some node) as Hj'
    by by rewrite list_lookup_fmap, Hj.
  assert (pagerank_scores.*1 !! i' = Some node) as Hi''
    by by rewrite list_lookup_fmap, Hi'.
  pose proof (NoDup_lookup _ _ _ _ Hnd Hj' Hi''). subst i'. congruence.
Qed.

Lemma score_get_missing pagerank_scores node :
  node ∉ pagerank_scores.*1 → score_get pagerank_scores node = S754_zero false.
Proof.
  intros Hno. unfold score_get.
  destruct (list_find _ _) as [[i [k s]] |] eqn:Hfind; [| done].
  apply list_find_Some in Hfind as (Hi & Hk & _). cbn in Hk. subst k.
  destruct Hno. apply list_elem_of_fmap. exists (node, s).
  split; [done |]. by eapply list_elem_of_lookup_2.
Qed.

End Labels.

(** X10. The Label Selector splits the items of the score map, none of
    which is lost or repeated, into the labelled ones and the others, and
    on a score map without NaN no labelled station has a smaller score than
    a station that is not labelled. *)
Theorem label_set_dominates (pagerank_scores : list item) :
  no_nan pagerank_scores →
  label_set pagerank_scores ++ drop top_k (sorted_stations pagerank_scores)
    ≡ₚ pagerank_scores
  ∧ ∀ a b, a ∈ label_set pagerank_scores →
           b ∈ drop top_k (sorted_stations pagerank_scores) →
           score_ge a b.
Proof.
  intros Hnan. split.
  - rewrite sorted_stations_split. apply sorted_reverse_Permutation.
  - intros a b Ha Hb.
    pose proof (sorted_reverse_descending _ Hnan) as Hdesc.
    fold (sorted_stations pagerank_scores) in Hdesc.
    rewrite <- sorted_stations_split in Hdesc.
    by eapply StronglySorted_app_1_elem_of.
Qed.

Lemma label_set_dominates_witness :
  let scores : list item :=
    List.map (λ p, ([Npos p], S754_finite false (p * (19 - p)) 0))
      [1; 2; 3; 4; 5; 6; 7; 8; 9; 10; 11; 12; 13; 14; 15; 16; 17;
       18]%positive in
  label_set scores ++ drop top_k (sorted_stations scores) ≡ₚ scores
  ∧ ∀ a b, a ∈ label_set scores →
           b ∈ drop top_k (sorted_stations scores) → score_ge a b.
Proof.
  apply (label_set_dominates
           (List.map (λ p, ([Npos p], S754_finite false (p * (19 - p)) 0))
              [1; 2; 3; 4; 5; 6; 7; 8; 9; 10; 11; 12; 13; 14; 15; 16; 17;
               18]%positive)).
  apply Forall_forall. intros it (n & -> & _)%elem_of_map. reflexivity.
Defined.

(** X11. The labels are keys of the score map, at most 15 of them; they are
    distinct when the keys of the score map are, as the keys of a dict are;
    and when the score map has at most 15 items every station of it is
    labelled. *)
Theorem labels_are_keys (pagerank_scores : list item) :
  (length (labels_to_draw pagerank_scores) ≤ 15)%nat
  ∧ (∀ k, k ∈ labels_to_draw pagerank_scores → k ∈ pagerank_scores.*1)
  ∧ (NoDup pagerank_scores.*1 → NoDup (labels_to_draw pagerank_scores))
  ∧ ((length pagerank_scores ≤ 15)%nat →
     labels_to_draw pagerank_scores ≡ₚ pagerank_scores.*1).
Proof.
  split; [apply length_labels_to_draw |]. split; [| split].
  - intros k Hk. rewrite <- sorted_stations_keys.
    eapply elem_of_sublist; [done | apply labels_to_draw_sublist].
  - apply NoDup_labels_to_draw.
  - intros Hlen. unfold labels_to_draw, label_set. rewrite take_ge.
    + rewrite map_fmap. apply sorted_stations_keys.
    + unfold sorted_stations. rewrite sorted_reverse_Permutation.
      exact Hlen.
Qed.

(** X12. The score lookup of line 112 returns the score the map holds for
    the node, and the integer zero, as a float, for a node that is not a
    key of the map. *)
Theorem score_get_lookup (pagerank_scores : list item) (node : pystr) :
  (node ∉ pagerank_scores.*1
   → score_get pagerank_scores node = S754_zero false)
  ∧ (NoDup pagerank_scores.*1
     → ∀ s, (node, s) ∈ pagerank_scores
            → score_get pagerank_scores node = s).
Proof.
  split; [apply score_get_missing |].
  intros Hnd s Hin. by apply score_get_first.
Qed.

(** * Runs of the script *)

Section ScriptRuns.

Variable float : pystr → option f64.
Variable pagerank : DiGraph → option (list item).
Variable log10 : f64 → f64.

Lemma scale_sizes_None l : scale_sizes l = None ↔ l = [].
Proof. by destruct l. Qed.

Lemma scale_sizes_length l sizes :
  scale_sizes l = Some sizes → length sizes = length l.
Proof.
  destruct l as [| x l]; [done |].
  rewrite (scale_sizes_display (x :: l) _ _ eq_refl eq_refl). intros Hs.
  assert (sizes = List.map (display_size (fold_left np_minimum l x)
                              (fold_left np_maximum l x)) (x :: l))
    as -> by congruence.
  apply length_map.
Qed.

Lemma node_sizes_scaled_Some scores :
  scores ≠ [] →
  ∃ sizes, node_sizes_scaled log10 scores = Some sizes
           ∧ length sizes = length scores.
Proof.
  intros Hne. unfold node_sizes_scaled.
  destruct (scale_sizes (sizes_log log10 scores)) as [sizes |] eqn:Hs.
  - exists sizes. split; [done |]. apply scale_sizes_length in Hs.
    rewrite Hs. unfold sizes_log. by rewrite length_map.
  - apply scale_sizes_None in Hs. by destruct scores.
Qed.

Lemma nodes_G_filtered_nonempty G pos :
  valid_nodes G pos ≠ [] → nodes (G_filtered G pos) ≠ [].
Proof.
  destruct (valid_nodes G pos) as [| n l] eqn:Hv; [done |]. intros _ Hnil.
  assert (n ∈ valid_nodes G pos) as Hn by (rewrite Hv; left).
  apply valid_nodes_nodes_G_filtered in Hn. rewrite Hnil in Hn.
  by apply elem_of_nil in Hn.
Qed.

Lemma rank_and_draw_raises Gf posf :
  pagerank Gf = None →
  rank_and_draw pagerank log10 Gf posf = ([ComputePageRank], inr Raised).
Proof. intros Hr. unfold rank_and_draw. by rewrite Hr. Qed.

Lemma rank_and_draw_returns Gf posf pagerank_scores :
  nodes Gf ≠ [] →
  pagerank Gf = Some pagerank_scores →
  ∃ node_sizes,
    node_sizes_scaled log10 (List.map (score_get pagerank_scores) (nodes Gf))
    = Some node_sizes
    ∧ length node_sizes = length (nodes Gf)
    ∧ rank_and_draw pagerank log10 Gf posf
      = ([ComputePageRank; ScaleSizes; SelectLabels; Draw],
         inl (mkFigure (edges Gf) (nodes Gf) node_sizes
                (List.map (score_get pagerank_scores) (nodes Gf))
                (filter (λ kv : pystr * coords,
                           kv.1 ∈ labels_to_draw pagerank_scores)
                        (map_to_list posf)))).
Proof.
  intros Hne Hr.
  destruct (node_sizes_scaled_Some
              (List.map (score_get pagerank_scores) (nodes Gf)))
    as (sizes & Hs & Hlen); [by destruct (nodes Gf) |].
  exists sizes. split; [done |]. split; [by rewrite Hlen, length_map |].
  unfold rank_and_draw. rewrite Hr. cbn [call run_bind run_ret enter app].
  rewrite Hs. reflexivity.
Qed.

(** The run of the script on a readable line file, one case for each place
    where it can end. *)
Lemma main_readable line_rows coords_file :
  let G := (build_graph_from_csv (Some line_rows) empty_graph).1 in
  main float pagerank log10 (Some line_rows) coords_file
  = match load_coordinates_from_csv float coords_file with
    | None => ([LoadGraph; LoadCoordinates], Exit NoCoordinates)
    | Some pos =>
        if decide (pos = ∅)
        then ([LoadGraph; LoadCoordinates], Exit NoCoordinates)
        else if decide (valid_nodes G pos = [])
        then ([LoadGraph; LoadCoordinates; FilterGraph],
              Exit EmptyIntersection)
        else
          let '(log, r) :=
            rank_and_draw pagerank log10 (G_filtered G pos)
              (pos_filtered G pos) in
          ([LoadGraph; LoadCoordinates; FilterGraph] ++ log,
           match r with inl f => Shown f | inr o => o end)
    end.
Proof.
  cbn zeta. unfold main, script.
  cbn [build_graph_from_csv fst negb enter run_bind app].
  destruct (load_coordinates_from_csv float coords_file) as [pos |];
    [| reflexivity].
  destruct (decide (pos = ∅)); [reflexivity |].
  unfold filter_rank_draw, graph_filter.
  destruct (decide (valid_nodes _ pos = [])) as [-> | Hne]; [reflexivity |].
  destruct (valid_nodes _ pos) eqn:Hv; [done |].
  cbn [enter run_ret run_bind app].
  by destruct (rank_and_draw _ _ _ _) as [log [f | o]].
Qed.

Lemma main_unreadable coords_file :
  main float pagerank log10 None coords_file
  = ([LoadGraph], Exit LineFileUnreadable).
Proof. reflexivity. Qed.

(** A station is common to the two files when the graph and the map built
    from them share a node. *)
Lemma common_station_valid_nodes line_rows coords_rows :
  common_station float line_rows coords_rows
  ↔ valid_nodes (foldl build_graph_row empty_graph line_rows)
      (foldl (load_row float) ∅ coords_rows) ≠ [].
Proof.
  split.
  - intros (n & (r & u & v & Hr & Hp & Hn) & Hc) Hnil.
    assert (n ∈ valid_nodes (foldl build_graph_row empty_graph line_rows)
                  (foldl (load_row float) ∅ coords_rows)) as Hin.
    { apply elem_of_valid_nodes. split.
      - apply foldl_build_nodes. right. by exists r, u, v.
      - by apply foldl_load_row_is_Some. }
    rewrite Hnil in Hin. by apply elem_of_nil in Hin.
  - destruct (valid_nodes _ _) as [| n l] eqn:Hv; [done |]. intros _.
    assert (n ∈ valid_nodes (foldl build_graph_row empty_graph line_rows)
                  (foldl (load_row float) ∅ coords_rows)) as Hin
      by (rewrite Hv; left).
    apply elem_of_valid_nodes in Hin as [Hn Hc].
    exists n. split.
    + apply foldl_build_nodes in Hn as [Hn | ?]; [| done].
      by apply elem_of_nil in Hn.
    + by apply foldl_load_row_is_Some.
Qed.

Lemma load_empty_iff rows :
  foldl (load_row float) ∅ rows = ∅ ↔ ∀ r, r ∈ rows → ¬ accepted float r.
Proof.
  split.
  - intros Hempty r Hr Hacc.
    apply coord_entry_accepted in Hacc as [[k v] He].
    assert (is_Some (foldl (load_row float) ∅ rows !! k)) as [c Hc]
      by (apply foldl_load_row_is_Some; eauto).
    by rewrite Hempty, lookup_empty in Hc.
  - intros Hno. apply map_empty. intros k.
    apply eq_None_not_Some. intros (r & v & Hr & He)%foldl_load_row_is_Some.
    apply (Hno r Hr), coord_entry_accepted. eauto.
Qed.

Lemma load_nonempty rows :
  foldl (load_row float) ∅ rows ≠ ∅ ↔ ∃ r, r ∈ rows ∧ accepted float r.
Proof.
  split.
  - intros (k & c & Hk)%map_choose.
    assert (is_Some (foldl (load_row float) ∅ rows !! k)) as Hs by eauto.
    apply foldl_load_row_is_Some in Hs as (r & v & Hr & He).
    exists r. split; [done |]. apply coord_entry_accepted. eauto.
  - intros (r & Hr & Hacc) Hempty. by eapply load_empty_iff.
Qed.

Lemma common_station_nonempty line_rows coords_rows :
  common_station float line_rows coords_rows →
  foldl (load_row float) ∅ coords_rows ≠ ∅.
Proof.
  intros (n & _ & r & c & Hr & He). apply load_nonempty.
  exists r. split; [done |]. apply coord_entry_accepted. eauto.
Qed.

(** The five ways in which a run of the script ends. *)
Lemma main_cases line_file coords_file :
  (line_file = None
   ∧ main float pagerank log10 line_file coords_file
     = ([LoadGraph], Exit LineFileUnreadable))
  ∨ (∃ line_rows, line_file = Some line_rows
     ∧ (coords_file = None
        ∨ ∃ coords_rows, coords_file = Some coords_rows
            ∧ ∀ r, r ∈ coords_rows → ¬ accepted float r)
     ∧ main float pagerank log10 line_file coords_file
       = ([LoadGraph; LoadCoordinates], Exit NoCoordinates))
  ∨ (∃ line_rows coords_rows,
       line_file = Some line_rows ∧ coords_file = Some coords_rows
       ∧ (∃ r, r ∈ coords_rows ∧ accepted float r)
       ∧ ¬ common_station float line_rows coords_rows
       ∧ main float pagerank log10 line_file coords_file
         = ([LoadGraph; LoadCoordinates; FilterGraph],
            Exit EmptyIntersection))
  ∨ (∃ line_rows coords_rows,
       line_file = Some line_rows ∧ coords_file = Some coords_rows
       ∧ common_station float line_rows coords_rows
       ∧ pagerank (G_filtered (foldl build_graph_row empty_graph line_rows)
                     (foldl (load_row float) ∅ coords_rows)) = None
       ∧ main float pagerank log10 line_file coords_file
         = ([LoadGraph; LoadCoordinates; FilterGraph; ComputePageRank],
            Raised))
  ∨ (∃ line_rows coords_rows pagerank_scores node_sizes,
       let G := foldl build_graph_row empty_graph line_rows in
       let pos := foldl (load_row float) ∅ coords_rows in
       let scores :=
         List.map (score_get pagerank_scores) (nodes (G_filtered G pos)) in
       line_file = Some line_rows ∧ coords_file = Some coords_rows
       ∧ common_station float line_rows coords_rows
       ∧ pagerank (G_filtered G pos) = Some pagerank_scores
       ∧ node_sizes_scaled log10 scores = Some node_sizes
       ∧ length node_sizes = length (nodes (G_filtered G pos))
       ∧ main float pagerank log10 line_file coords_file
         = (all_steps,
            Shown (mkFigure (edges (G_filtered G pos))
                     (nodes (G_filtered G pos)) node_sizes scores
                     (filter (λ kv : pystr * coords,
                                kv.1 ∈ labels_to_draw pagerank_scores)
                        (map_to_list (pos_filtered G pos)))))).
Proof.
  destruct line_file as [line_rows |]; [| by left].
  right. rewrite main_readable. cbn [build_graph_from_csv fst].
  destruct coords_file as [coords_rows |];
    [| left; exists line_rows; auto].
  cbn [load_coordinates_from_csv].
  destruct (decide (foldl (load_row float) ∅ coords_rows = ∅))
    as [Hempty | Hne].
  { left. exists line_rows. split; [done |]. split; [| done].
    right. exists coords_rows. split; [done |]. by apply load_empty_iff. }
  right.
  destruct (decide (valid_nodes _ _ = [])) as [Hnil | Hvalid].
  { left. exists line_rows, coords_rows. do 2 (split; [done |]).
    split; [by apply load_nonempty |]. split; [| done].
    rewrite common_station_valid_nodes. tauto. }
  right. pose proof Hvalid as Hcommon%common_station_valid_nodes.
  destruct (pagerank (G_filtered
                        (foldl build_graph_row empty_graph line_rows)
                        (foldl (load_row float) ∅ coords_rows)))
    as [pagerank_scores |] eqn:Hrank.
  - right. pose proof (nodes_G_filtered_nonempty _ _ Hvalid) as Hnodes.
    destruct (rank_and_draw_returns _
                (pos_filtered (foldl build_graph_row empty_graph line_rows)
                   (foldl (load_row float) ∅ coords_rows))
                _ Hnodes Hrank) as (node_sizes & Hs & Hlen & ->).
    exists line_rows, coords_rows, pagerank_scores, node_sizes.
    cbn zeta. by repeat (split; [done |]).
  - left. exists line_rows, coords_rows. do 3 (split; [done |]).
    split; [done |]. by rewrite rank_and_draw_raises.
Qed.

End ScriptRuns.

(** Membership of a step in a log that is a literal list. *)
Ltac not_a_step :=
  let Hin := fresh "Hin" in
  intros Hin;
  repeat (apply elem_of_cons in Hin as [? | Hin]; [done |]);
  by apply elem_of_nil in Hin.

Ltac a_step := unfold all_steps; repeat first [by left | right].

(** X13. The script stops at step 1 exactly when the line file cannot be
    read, and at step 2 exactly when the line file can be read and the
    coordinate file cannot, or holds no accepted record; in both cases no
    later step is entered. *)
Theorem script_loading_exits (float : pystr → option f64)
    (pagerank : DiGraph → option (list item)) (log10 : f64 → f64)
    (line_file coords_file : option (list row)) :
  ((main float pagerank log10 line_file coords_file).2
   = Exit LineFileUnreadable ↔ line_file = None)
  ∧ ((main float pagerank log10 line_file coords_file).2
     = Exit LineFileUnreadable
     → (main float pagerank log10 line_file coords_file).1 = [LoadGraph])
  ∧ ((main float pagerank log10 line_file coords_file).2 = Exit NoCoordinates
     ↔ is_Some line_file
       ∧ (coords_file = None
          ∨ ∃ coords_rows, coords_file = Some coords_rows
              ∧ ∀ r, r ∈ coords_rows → ¬ accepted float r))
  ∧ ((main float pagerank log10 line_file coords_file).2 = Exit NoCoordinates
     → (main float pagerank log10 line_file coords_file).1
       = [LoadGraph; LoadCoordinates]).
Proof.
  destruct (main_cases float pagerank log10 line_file coords_file)
    as [[-> ->] | [(lr & -> & Hc & ->) | [(lr & cr & -> & -> & Hacc & _ & ->)
       | [(lr & cr & -> & -> & Hcom & _ & ->)
         | (lr & cr & sc & sizes & -> & -> & Hcom & _ & _ & _ & ->)]]]];
    cbn [fst snd].
  - repeat split; try done; by intros [? ?].
  - repeat split; try done; eauto.
  - repeat split; try done.
    all: intros [_ [? | (cr' & [= <-] & Hno)]]; [done |].
    all: destruct Hacc as (r & Hr & Hacc); by destruct (Hno r Hr).
  - repeat split; try done.
    all: intros [_ [? | (cr' & [= <-] & Hno)]]; [done |].
    all: apply common_station_nonempty, load_nonempty in Hcom
           as (r & Hr & Hacc); by destruct (Hno r Hr).
  - repeat split; try done.
    all: intros [_ [? | (cr' & [= <-] & Hno)]]; [done |].
    all: apply common_station_nonempty, load_nonempty in Hcom
           as (r & Hr & Hacc); by destruct (Hno r Hr).
Qed.

(** X14. The ranking is reached exactly when both files can be read and
    some station named in a usable line row is the key of an accepted
    coordinate record; when both files can be read and some record is
    accepted but no station is common, the script stops with the
    empty-intersection diagnostic, and only then. *)
Theorem script_reaches_ranking (float : pystr → option f64)
    (pagerank : DiGraph → option (list item)) (log10 : f64 → f64)
    (line_file coords_file : option (list row)) :
  (ComputePageRank ∈ (main float pagerank log10 line_file coords_file).1
   ↔ ∃ line_rows coords_rows,
       line_file = Some line_rows ∧ coords_file = Some coords_rows
       ∧ common_station float line_rows coords_rows)
  ∧ ((main float pagerank log10 line_file coords_file).2
     = Exit EmptyIntersection
     ↔ ∃ line_rows coords_rows,
         line_file = Some line_rows ∧ coords_file = Some coords_rows
         ∧ (∃ r, r ∈ coords_rows ∧ accepted float r)
         ∧ ¬ common_station float line_rows coords_rows).
Proof.
  destruct (main_cases float pagerank log10 line_file coords_file)
    as [[-> ->] | [(lr & -> & Hc & ->) | [(lr & cr & -> & -> & Hacc & Hno & ->)
       | [(lr & cr & -> & -> & Hcom & _ & ->)
         | (lr & cr & sc & sizes & -> & -> & Hcom & _ & _ & _ & ->)]]]];
    cbn [fst snd].
  - split; split; [not_a_step | by intros (? & ? & ? & _)
                   | done | by intros (? & ? & ? & _)].
  - split; split; [not_a_step | | done |].
    + intros (lr' & cr & _ & -> & Hcom).
      destruct Hc as [? | (cr' & [= <-] & Hno)]; [done |].
      apply common_station_nonempty, load_nonempty in Hcom
        as (r & Hr & Hacc). by destruct (Hno r Hr).
    + intros (lr' & cr & _ & -> & (r & Hr & Hacc) & _).
      destruct Hc as [? | (cr' & [= <-] & Hno)]; [done |].
      by destruct (Hno r Hr).
  - split; split; [not_a_step | | by eauto 10 | done].
    by intros (lr' & cr' & [= <-] & [= <-] & Hcom).
  - split; split; [by eauto | intros _; a_step | done |].
    by intros (lr' & cr' & [= <-] & [= <-] & _ & Hno).
  - split; split; [by eauto | intros _; a_step | done |].
    by intros (lr' & cr' & [= <-] & [= <-] & _ & Hno).
Qed.

Section FigureProperties.




End FigureProperties.






(** X2. The loader returns [True] for every readable line file; the graph
    is empty afterwards (the warning of line 41) exactly when no row has a
    usable pair, and then the script goes on to load the coordinates and
    stops at step 2 or at step 3, without ranking. *)
Theorem empty_graph_warning (float : pystr → option f64)
    (pagerank : DiGraph → option (list item)) (log10 : f64 → f64)
    (reader : list row) :
  (build_graph_from_csv (Some reader) empty_graph).2 = true
  ∧ (number_of_nodes (build_graph_from_csv (Some reader) empty_graph).1
     = 0%nat
     ↔ ∀ r, r ∈ reader → unusable r)
  ∧ ((∀ r, r ∈ reader → unusable r)
     → (build_graph_from_csv (Some reader) empty_graph).1 = empty_graph
       ∧ ∀ coords_file,
           main float pagerank log10 (Some reader) coords_file
           = ([LoadGraph; LoadCoordinates], Exit NoCoordinates)
           ∨ main float pagerank log10 (Some reader) coords_file
             = ([LoadGraph; LoadCoordinates; FilterGraph],
                Exit EmptyIntersection)).
Proof.
  cbn [build_graph_from_csv fst snd]. split; [done |].
  assert (nodes (foldl build_graph_row empty_graph reader) = []
          ↔ ∀ r, r ∈ reader → unusable r) as Hnodes.
  { split.
    - intros Hnil r Hr (u & v & Hp).
      assert (u ∈ nodes (foldl build_graph_row empty_graph reader)) as Hu
        by (apply foldl_build_nodes; right; exists r, u, v; auto).
      rewrite Hnil in Hu. by apply elem_of_nil in Hu.
    - intros Hno.
      destruct (nodes (foldl build_graph_row empty_graph reader))
        as [| n l] eqn:Hn; [done |].
      assert (n ∈ nodes (foldl build_graph_row empty_graph reader)) as Hin
        by (rewrite Hn; left).
      apply foldl_build_nodes in Hin as [Hin | (r & u & v & Hr & Hp & _)].
      + by apply elem_of_nil in Hin.
      + destruct (Hno r Hr). eauto. }
  split.
  { unfold number_of_nodes. rewrite <- Hnodes.
    by destruct (nodes (foldl build_graph_row empty_graph reader)). }
  intros Hno. split.
  - apply DiGraph_eq; [by apply Hnodes |]. cbn [edges empty_graph].
    destruct (edges (foldl build_graph_row empty_graph reader))
      as [| [u v] l] eqn:He; [done |].
    assert ((u, v) ∈ edges (foldl build_graph_row empty_graph reader))
      as Hin by (rewrite He; left).
    apply foldl_build_edges in Hin as [Hin | (r & Hr & Hp)].
    + by apply elem_of_nil in Hin.
    + destruct (Hno r Hr). eauto.
  - intros coords_file.
    assert (¬ ∃ coords_rows, common_station float reader coords_rows)
      as Hnot.
    { intros (cr & n & (r & u & v & Hr & Hp & _) & _).
      destruct (Hno r Hr). eauto. }
    destruct (main_cases float pagerank log10 (Some reader) coords_file)
      as [[? _] | [(lr & _ & _ & ->) | [(lr & cr & _ & _ & _ & _ & ->)
         | [(lr & cr & [= <-] & _ & Hcom & _)
           | (lr & cr & sc & sizes & [= <-] & _ & Hcom & _)]]]];
      try done; auto; destruct Hnot; eauto.
Qed.

(** * The ends of the display range, and NaN *)

Local Open Scope Z_scope.

Section DisplayRange.

#[local] Opaque U.

Lemma np_minimum_nan_l b : np_minimum S754_nan b = S754_nan.
Proof. by destruct b. Qed.

Lemma np_minimum_nan_r a : np_minimum a S754_nan = S754_nan.
Proof. by destruct a. Qed.

Lemma np_maximum_nan_l b : np_maximum S754_nan b = S754_nan.
Proof. by destruct b. Qed.

Lemma np_maximum_nan_r a : np_maximum a S754_nan = S754_nan.
Proof. by destruct a. Qed.

Lemma fold_left_nan (f : f64 -> f64 -> f64) l :
  (forall b, f S754_nan b = S754_nan) ->
  fold_left f l S754_nan = S754_nan.
Proof. intros Hf. induction l as [| x l IH]; cbn; [done |]. by rewrite Hf. Qed.

Lemma fold_left_has_nan (f : f64 -> f64 -> f64) l : forall a,
  (forall b, f S754_nan b = S754_nan) ->
  (forall b, f b S754_nan = S754_nan) ->
  S754_nan ∈ a :: l -> fold_left f l a = S754_nan.
Proof.
  induction l as [| x l IH]; intros a Hl Hr Hin; cbn.
  - by apply list_elem_of_singleton in Hin.
  - apply IH; [done | done |].
    apply elem_of_cons in Hin as [<- | Hin]; [rewrite Hl; left |].
    apply elem_of_cons in Hin as [<- | Hin]; [rewrite Hr; left |].
    by right.
Qed.

Lemma display_size_nan_min mx x : display_size S754_nan mx x = S754_nan.
Proof.
  unfold display_size.
  assert (f64_sub x S754_nan = S754_nan) as -> by by destruct x.
  by destruct (f64_sub mx S754_nan).
Qed.

Lemma scale_sizes_has_nan l :
  S754_nan ∈ l ->
  scale_sizes l = Some (replicate (length l) S754_nan).
Proof.
  intros Hin. destruct l as [| x l]; [by apply elem_of_nil in Hin |].
  rewrite (scale_sizes_display (x :: l) _ _ eq_refl eq_refl).
  rewrite (fold_left_has_nan np_minimum l x np_minimum_nan_l
             np_minimum_nan_r Hin).
  f_equal. generalize (x :: l). intros k.
  induction k as [| y k IH]; [done |].
  cbn [List.map length replicate]. by rewrite display_size_nan_min, IH.
Qed.

Lemma fold_np_minimum_elem l : forall a,
  Forall valid (a :: l) -> fold_left np_minimum l a ∈ a :: l.
Proof.
  induction l as [| x l IH]; intros a Hl; cbn [fold_left]; [left |].
  apply Forall_cons in Hl as [Ha Hl]. pose proof Hl as Hl'.
  apply Forall_cons in Hl' as [Hx Hl'].
  destruct (np_minimum_spec a x Ha Hx) as [[-> | ->] _].
  - assert (fold_left np_minimum l a ∈ a :: l) as Hin
      by (apply IH; by constructor).
    apply elem_of_cons in Hin as [-> | Hin]; [left | by do 2 right].
  - right. by apply IH.
Qed.

Lemma fold_np_maximum_elem l : forall a,
  Forall valid (a :: l) -> fold_left np_maximum l a ∈ a :: l.
Proof.
  induction l as [| x l IH]; intros a Hl; cbn [fold_left]; [left |].
  apply Forall_cons in Hl as [Ha Hl]. pose proof Hl as Hl'.
  apply Forall_cons in Hl' as [Hx Hl'].
  destruct (np_maximum_spec a x Ha Hx) as [[-> | ->] _].
  - assert (fold_left np_maximum l a ∈ a :: l) as Hin
      by (apply IH; by constructor).
    apply elem_of_cons in Hin as [-> | Hin]; [left | by do 2 right].
  - right. by apply IH.
Qed.

Lemma SFeqb_val x y : valid x -> valid y ->
  SFeqb x y = true <-> val x = val y.
Proof.
  intros Hx Hy. unfold SFeqb. rewrite (SFcompare_val x y Hx Hy).
  destruct (Z.compare_spec (val x) (val y)); split; (done || lia).
Qed.

(** A positive float in canonical form is determined by its value. *)
Lemma nonneg_val_inj x y :
  nonneg x -> nonneg y -> 0 < val x -> val x = val y -> x = y.
Proof.
  intros Hx Hy Hpos Heq.
  pose proof (SFcompare_val x y (nonneg_valid _ Hx) (nonneg_valid _ Hy))
    as Hc.
  rewrite Heq, Z.compare_refl in Hc.
  destruct (nonneg_pos_finite x Hx Hpos) as (m1 & e1 & -> & _).
  destruct (nonneg_pos_finite y Hy ltac:(lia)) as (m2 & e2 & -> & _).
  cbn [SFcompare] in Hc.
  destruct (Z.compare_spec e1 e2) as [-> | |]; [| done | done].
  injection Hc as Hc. apply Pos.compare_eq in Hc. by subst.
Qed.

Lemma size_val_min W : 0 < W -> size_val W 0 = 5 * 2 ^ U.
Proof.
  intros HW. unfold size_val. pose proof pow_U_pos.
  rewrite (RN_0 1), (Z.mul_0_l (2 ^ U)), (RN_0 W),
    (Z.mul_0_l (295 * 2 ^ U)), (RN_0 (2 ^ U)), Z.add_0_l by lia.
  rewrite <- val_c5. apply RN_val, nonneg_c5.
Qed.

Lemma size_val_max W d : 0 < W -> RN d 1 = W -> size_val W d = 300 * 2 ^ U.
Proof.
  intros HW Hd. unfold size_val. pose proof pow_U_pos as HpU. rewrite Hd.
  assert (RN (W * 2 ^ U) W = 2 ^ U) as ->.
  { rewrite <- RN_one at 2. rewrite (Z.mul_comm W).
    rewrite <- (Z.mul_1_l W) at 2. by apply RN_scale. }
  assert (RN (2 ^ U * (295 * 2 ^ U)) (2 ^ U) = 295 * 2 ^ U) as ->.
  { rewrite (Z.mul_comm (2 ^ U)). rewrite <- (Z.mul_1_l (2 ^ U)) at 3.
    rewrite RN_scale by lia. rewrite <- val_c295.
    apply RN_val, nonneg_c295. }
  replace (295 * 2 ^ U + 5 * 2 ^ U) with (300 * 2 ^ U) by lia.
  rewrite <- val_c300. apply RN_val, nonneg_c300.
Qed.

Lemma display_size_min mn mx x :
  moderate mn -> moderate mx -> val mn < val mx ->
  moderate x -> val x = val mn ->
  display_size mn mx x = f64_of_Z min_display_size.
Proof.
  intros Hmn Hmx Hlt Hx Heq.
  destruct (range_spec mn mx Hmn Hmx Hlt) as (_ & _ & HW).
  destruct (display_size_spec mn mx Hmn Hmx Hlt x Hx ltac:(lia))
    as (Hn & Hv & _).
  rewrite Heq, Z.sub_diag, size_val_min in Hv by done.
  rewrite f64_of_Z_5. apply nonneg_val_inj; [done | apply nonneg_c5 | |].
  - rewrite Hv. pose proof pow_U_pos. lia.
  - by rewrite val_c5.
Qed.

Lemma display_size_max mn mx x :
  moderate mn -> moderate mx -> val mn < val mx ->
  moderate x -> val x = val mx ->
  display_size mn mx x = f64_of_Z max_display_size.
Proof.
  intros Hmn Hmx Hlt Hx Heq.
  destruct (range_spec mn mx Hmn Hmx Hlt) as (_ & HWv & HW).
  destruct (display_size_spec mn mx Hmn Hmx Hlt x Hx ltac:(lia))
    as (Hn & Hv & _).
  rewrite Heq, size_val_max in Hv by done.
  rewrite f64_of_Z_300. apply nonneg_val_inj; [done | apply nonneg_c300 | |].
  - rewrite Hv. pose proof pow_U_pos. lia.
  - by rewrite val_c300.
Qed.

(** X8. For finite log-values that are not all equal, the smallest and the
    largest are log-values of the array, and the display size is exactly 5
    for every log-value equal to the smallest and exactly 300 for every
    log-value equal to the largest. *)
Theorem display_size_extremes (sizes_log : list f64) :
  Forall moderate sizes_log ->
  (exists a b, a ∈ sizes_log /\ b ∈ sizes_log /\ SFltb a b = true) ->
  exists min_log_size max_log_size,
    np_min sizes_log = Some min_log_size
    /\ np_max sizes_log = Some max_log_size
    /\ min_log_size ∈ sizes_log /\ max_log_size ∈ sizes_log
    /\ scale_sizes sizes_log
       = Some (List.map (display_size min_log_size max_log_size) sizes_log)
    /\ (forall x, x ∈ sizes_log -> SFeqb x min_log_size = true ->
          display_size min_log_size max_log_size x
          = f64_of_Z min_display_size)
    /\ (forall x, x ∈ sizes_log -> SFeqb x max_log_size = true ->
          display_size min_log_size max_log_size x
          = f64_of_Z max_display_size).
Proof.
  intros Hl (a & b & Ha & Hb & Hab).
  destruct sizes_log as [| l0 ls]; [by apply elem_of_nil in Ha |].
  destruct (np_min_spec (l0 :: ls) _ Hl eq_refl) as [Hmn Hlo].
  destruct (np_max_spec (l0 :: ls) _ Hl eq_refl) as [Hmx Hhi].
  assert (Forall valid (l0 :: ls)) as Hvalid
    by (eapply Forall_impl; [exact Hl | apply moderate_valid]).
  pose proof (fold_np_minimum_elem ls l0 Hvalid) as Hmin_in.
  pose proof (fold_np_maximum_elem ls l0 Hvalid) as Hmax_in.
  set (mn := fold_left np_minimum ls l0) in *.
  set (mx := fold_left np_maximum ls l0) in *.
  rewrite Forall_forall in Hl, Hlo, Hhi.
  assert (val mn < val mx) as Hlt.
  { apply SFltb_val in Hab; [| by apply moderate_valid, Hl ..].
    pose proof (Hlo a Ha). pose proof (Hhi b Hb). lia. }
  exists mn, mx. do 4 (split; [done |]).
  split; [by apply scale_sizes_display |]. split.
  - intros x Hx Heq. apply display_size_min; try done; [by apply Hl |].
    apply SFeqb_val; [by apply moderate_valid, Hl | by apply moderate_valid
                     | done].
  - intros x Hx Heq. apply display_size_max; try done; [by apply Hl |].
    apply SFeqb_val; [by apply moderate_valid, Hl | by apply moderate_valid
                     | done].
Qed.

End DisplayRange.

Lemma display_size_extremes_witness :
  exists min_log_size max_log_size,
    np_min (sizes_log log10_sample [score_quarter; score_three_quarters])
    = Some min_log_size
    /\ np_max (sizes_log log10_sample [score_quarter; score_three_quarters])
       = Some max_log_size
    /\ min_log_size
       ∈ sizes_log log10_sample [score_quarter; score_three_quarters]
    /\ max_log_size
       ∈ sizes_log log10_sample [score_quarter; score_three_quarters]
    /\ scale_sizes
         (sizes_log log10_sample [score_quarter; score_three_quarters])
       = Some (List.map (display_size min_log_size max_log_size)
                 (sizes_log log10_sample
                    [score_quarter; score_three_quarters]))
    /\ (forall x,
          x ∈ sizes_log log10_sample [score_quarter; score_three_quarters] ->
          SFeqb x min_log_size = true ->
          display_size min_log_size max_log_size x
          = f64_of_Z min_display_size)
    /\ (forall x,
          x ∈ sizes_log log10_sample [score_quarter; score_three_quarters] ->
          SFeqb x max_log_size = true ->
          display_size min_log_size max_log_size x
          = f64_of_Z max_display_size).
Proof.
  apply (display_size_extremes
           (sizes_log log10_sample [score_quarter; score_three_quarters])).
  - repeat constructor; vm_compute; congruence.
  - exists (log_value log10_sample score_quarter),
      (log_value log10_sample score_three_quarters).
    split; [left |]. split; [right; left |]. vm_compute. reflexivity.
Defined.

(** X9. A NaN among the log-values makes the smallest log-value NaN, and
    with it every display size, whatever the other scores are. *)
Theorem nan_poisons_sizes (log10 : f64 -> f64) (scores : list f64)
    (s : f64) :
  s ∈ scores ->
  log_value log10 s = S754_nan ->
  np_min (sizes_log log10 scores) = Some S754_nan
  /\ node_sizes_scaled log10 scores
     = Some (replicate (length scores) S754_nan).
Proof.
  intros Hs Hnan.
  assert (S754_nan ∈ sizes_log log10 scores) as Hin.
  { rewrite sizes_log_map. apply elem_of_map. by exists s. }
  split.
  - destruct (sizes_log log10 scores) as [| x l];
      [by apply elem_of_nil in Hin |].
    cbn [np_min]. f_equal.
    by apply fold_left_has_nan;
      [apply np_minimum_nan_l | apply np_minimum_nan_r |].
  - unfold node_sizes_scaled. rewrite scale_sizes_has_nan by done.
    unfold sizes_log. by rewrite length_map.
Qed.

Lemma nan_poisons_sizes_witness :
  np_min (sizes_log log10_nan_sample
            [score_quarter; S754_nan; score_three_quarters])
  = Some S754_nan
  /\ node_sizes_scaled log10_nan_sample
       [score_quarter; S754_nan; score_three_quarters]
     = Some (replicate
               (length [score_quarter; S754_nan; score_three_quarters])
               S754_nan).
Proof.
  apply (nan_poisons_sizes log10_nan_sample
           [score_quarter; S754_nan; score_three_quarters] S754_nan).
  - right; left.
  - reflexivity.
Defined.
